(** * gobackend: service-account provisioning, IAM role grants, token
      authentication and environment unmarshalling

    A shallow embedding of the Go sources

    - [gcputils/serviceaccounts.go] ([NewM2MServiceAccount],
      [grantRolesToServiceAccount]),
    - the [authn] package ([NewGcpIdentityPlatformValidator],
      [Authenticate]),
    - [environ/unmarshal.go] ([Unmarshal], [parseTagValue]),

    together with the properties stated about them.  Go strings are byte
    strings and are modelled by [string]; Go maps by [gmap]; slices by
    [list]; a Go result pair [(T, error)] returned by one of the embedded
    functions by a pair of options, [None] standing for [nil]. *)

From Stdlib Require Import ZArith Ascii String List Lia.
From stdpp Require Import base option list gmap sets strings.

Set Default Proof Using "Type".
Local Open Scope string_scope.
Local Open Scope list_scope.

(** ** Go errors *)

(** gRPC status codes used by the sources. *)
Inductive Code := Unauthenticated | Internal.

(** The error values the sources build: [errors.New], [fmt.Errorf] with a
    text followed by one [%w] verb, [errors.Join] and [status.Error]; and
    the [*strconv.NumError] of a failed parse. *)
#[warnings="-register-all"]
Inductive error :=
| errors_New (msg : string)
| fmt_Errorf (text : string) (wrapped : error)
| errors_Join (errs : list error)
| status_Error (c : Code) (msg : string)
| strconv_NumError (func num : string) (err : error).

(** A remote call or library function that yields [(T, error)]. *)
Abbreviation result T := (T + error)%type.

(** ** Calls to collaborators

    The sources are sequences of calls to remote services and libraries.
    A computation threads the state [W] of the outside world and appends
    every call it makes, and every log record it writes, to a trace of
    events [E]. *)

Module Eff.
Section Eff.
Context {W E : Type}.

Definition M (A : Type) : Type := W → list E → A * W * list E.

Definition ret {A} (a : A) : M A := λ w t, (a, w, t).

Definition bind {A B} (c : M A) (k : A → M B) : M B :=
  λ w t, let '(a, w', t') := c w t in k a w' t'.

(** A call [e] whose outcome is the collaborator's answer [f] in the
    current world. *)
Definition call {A} (e : E) (f : W → A * W) : M A :=
  λ w t, let '(a, w') := f w in (a, w', t ++ [e]).

(** An event without an answer (a log record). *)
Definition emit (e : E) : M unit := λ w t, (tt, w, t ++ [e]).

(** Runs a computation from world [w] with an empty trace. *)
Definition run {A} (c : M A) (w : W) : A * W * list E := c w [].
End Eff.
End Eff.

Notation "x ←! c ; k" := (Eff.bind c (λ x, k))
  (at level 100, c at next level, right associativity,
   format "'[v' x  ←!  c ; '/' k ']'").
Notation "c ;! k" := (Eff.bind c (λ _, k))
  (at level 100, right associativity, format "'[v' c ;! '/' k ']'").

(** The [log/slog] levels the sources log at. *)
Inductive Level := LevelDebug | LevelInfo | LevelError.

(** ** IAM policies ([iampb.Policy], [iampb.Binding])

    [policy.Bindings] is a slice of pointers to bindings.  The bindings of
    a policy decoded from the service are distinct objects, so the slice is
    modelled by the list of the bindings themselves, and an update through
    one pointer by the replacement of one element. *)

Module Iam.

Record Binding := mkBinding { Role : string; Members : list string }.

(** Only [Bindings] is read or written by the sources; [Version] and [Etag]
    travel with the policy from [GetIamPolicy] to [SetIamPolicy]. *)
Record Policy := mkPolicy {
  Version : Z;
  Bindings : list Binding;
  Etag : string
}.

(** Lines 131-137: the scan [for _, m := range binding.Members] that sets
    [foundMember] and breaks at the first hit. *)
Fixpoint foundMember (member : string) (members : list string) : bool :=
  match members with
  | [] => false
  | m :: rest => if decide (m = member) then true else foundMember member rest
  end.

(** Lines 129-143, the body run on the binding whose role matches:
    [binding.Members = append(binding.Members, member)] unless the member
    was found.  [binding] is a pointer into the policy, so the policy sees
    the update. *)
Definition addMember (member : string) (binding : Binding) : Binding :=
  if foundMember member (Members binding) then binding
  else mkBinding (Role binding) (Members binding ++ [member]).

(** Lines 127-144: [for _, binding := range policy.Bindings], stopping at
    the first binding whose role is [roleName].  Returns [foundRole] and the
    bindings after the in-place update. *)
Fixpoint grantInBindings (roleName member : string) (bindings : list Binding)
  : bool * list Binding :=
  match bindings with
  | [] => (false, [])
  | binding :: rest =>
      if decide (Role binding = roleName)
      then (true, addMember member binding :: rest)
      else let '(foundRole, rest') := grantInBindings roleName member rest in
           (foundRole, binding :: rest')
  end.

(** Lines 127-150: one iteration of [for _, roleName := range roles]. *)
Definition grantRole (member : string) (bindings : list Binding)
    (roleName : string) : list Binding :=
  let '(foundRole, bindings') := grantInBindings roleName member bindings in
  if foundRole then bindings'
  else bindings' ++ [mkBinding roleName [member]].

(** Lines 126-151: the whole loop over [roles], on the binding sequence. *)
Definition grantRoles (member : string) (roles : list string)
    (bindings : list Binding) : list Binding :=
  fold_left (grantRole member) roles bindings.

(** The policy-mutation step of [grantRolesToServiceAccount]. *)
Definition Grant (policy : Policy) (member : string) (roles : list string)
  : Policy :=
  mkPolicy (Version policy) (grantRoles member roles (Bindings policy))
           (Etag policy).

(** *** Reading a policy *)

(** The members granted [role]: those of every binding for it (exactly one
    binding in a policy that satisfies the invariant), in order. *)
Definition membersOf (role : string) (bindings : list Binding)
  : list string :=
  concat (Members <$> filter (λ b, Role b = role) bindings).

Definition roleMembers (role : string) (policy : Policy) : list string :=
  membersOf role (Bindings policy).

(** The binding the merge loop looks at for [role]: the first one. *)
Fixpoint firstBinding (role : string) (bindings : list Binding)
  : option Binding :=
  match bindings with
  | [] => None
  | b :: rest => if decide (Role b = role) then Some b
                 else firstBinding role rest
  end.

(** The members of the binding the merge loop looks at, none when no
    binding has the role. *)
Definition firstMembers (role : string) (policy : Policy) : list string :=
  match firstBinding role (Bindings policy) with
  | Some b => Members b
  | None => []
  end.

(** The state in which the loop body leaves [role]: the binding it finds
    for the role holds the member. *)
Definition granted (member role : string) (bindings : list Binding) : Prop :=
  ∃ b, firstBinding role bindings = Some b ∧ member ∈ Members b.

(** The AuthorizationPolicy invariant: a role names at most one binding and
    no member list repeats a member. *)
Definition wfBindings (bindings : list Binding) : Prop :=
  NoDup (Role <$> bindings) ∧ Forall (λ b, NoDup (Members b)) bindings.

Definition wfPolicy (policy : Policy) : Prop := wfBindings (Bindings policy).

(** [binding'] is [binding] left as it was, or with [member] appended at
    the end of its members, which happens for a role of [roles] that lacked
    the member. *)
Definition appendedOnly (member : string) (roles : list string)
    (binding binding' : Binding) : Prop :=
  Role binding' = Role binding ∧
  (Members binding' = Members binding ∨
   (Members binding' = Members binding ++ [member] ∧
    (member ∉ Members binding) ∧ Role binding ∈ roles)).

(** A binding the merge creates: one of [roles], holding the member only. *)
Definition freshBinding (member : string) (roles : list string)
    (binding : Binding) : Prop :=
  Members binding = [member] ∧ Role binding ∈ roles.

(** [bindings'] keeps every binding of [bindings] at its index, changed by
    [appendedOnly] at most, followed by fresh bindings. *)
Definition extends (member : string) (roles : list string)
    (bindings bindings' : list Binding) : Prop :=
  ∃ kept new,
    bindings' = kept ++ new ∧
    Forall2 (appendedOnly member roles) bindings kept ∧
    Forall (freshBinding member roles) new.

End Iam.

(** ** [gcputils/serviceaccounts.go] *)

Module Gcputils.
Import Iam.

(** *** Messages of [iamadminpb] and [iampb] *)

Record ServiceAccount := mkServiceAccount {
  sa_Name : string;
  sa_Email : string;
  sa_DisplayName : string;
  sa_Description : string
}.

Record CreateServiceAccountRequest := mkCreateServiceAccountRequest {
  csa_Name : string;
  csa_AccountId : string;
  csa_ServiceAccount : ServiceAccount
}.

Inductive ServiceAccountKeyAlgorithm :=
  KEY_ALG_UNSPECIFIED | KEY_ALG_RSA_1024 | KEY_ALG_RSA_2048.

Inductive ServiceAccountPrivateKeyType :=
  TYPE_UNSPECIFIED | TYPE_PKCS12_FILE | TYPE_GOOGLE_CREDENTIALS_FILE.

Record CreateServiceAccountKeyRequest := mkCreateServiceAccountKeyRequest {
  csk_Name : string;
  csk_KeyAlgorithm : ServiceAccountKeyAlgorithm;
  csk_PrivateKeyType : ServiceAccountPrivateKeyType
}.

Record DeleteServiceAccountRequest := mkDeleteServiceAccountRequest {
  dsa_Name : string
}.

(** [PrivateKeyData] is a [[]byte]. *)
Record ServiceAccountKey := mkServiceAccountKey {
  key_Name : string;
  key_PrivateKeyData : list Byte.byte
}.

Record GetIamPolicyRequest := mkGetIamPolicyRequest { gip_Resource : string }.

Record SetIamPolicyRequest := mkSetIamPolicyRequest {
  sip_Resource : string;
  sip_Policy : Policy
}.

(** Lines 16-25. *)
Record M2MServiceAccount := mkM2MServiceAccount {
  Email : string;
  PrivateKey : string;
  KeyID : string;
  DisplayName : string;
  ServiceAccountID : string
}.

(** *** The remote clients

    [iamadmin.IamClient] and [iampolicy.IamPolicyClient], each operation
    answering in a world [W] and leaving a new one.  An operation that
    returns only an [error] answers [None] for [nil].  The [ctx] argument
    is part of the world: a cancelled or expired context shows as the
    operation's error. *)
Class IamClient (W : Type) := {
  NewIamClient : W → option error * W;
  CreateServiceAccount :
    CreateServiceAccountRequest → W → result ServiceAccount * W;
  CreateServiceAccountKey :
    CreateServiceAccountKeyRequest → W → result ServiceAccountKey * W;
  DeleteServiceAccount : DeleteServiceAccountRequest → W → option error * W;
  IamClient_Close : W → option error * W
}.

Class IamPolicyClient (W : Type) := {
  NewIamPolicyClient : W → option error * W;
  GetIamPolicy : GetIamPolicyRequest → W → result Policy * W;
  SetIamPolicy : SetIamPolicyRequest → W → result Policy * W;
  IamPolicyClient_Close : W → option error * W
}.

(** An attribute value of a log record; [AttrError e] is [e.Error()]. *)
Inductive Attr :=
| AttrString (s : string)
| AttrStrings (l : list string)
| AttrError (e : error).

Inductive Event :=
| EvNewIamClient
| EvCreateServiceAccount (req : CreateServiceAccountRequest)
| EvCreateServiceAccountKey (req : CreateServiceAccountKeyRequest)
| EvDeleteServiceAccount (req : DeleteServiceAccountRequest)
| EvIamClientClose
| EvNewIamPolicyClient
| EvGetIamPolicy (req : GetIamPolicyRequest)
| EvSetIamPolicy (req : SetIamPolicyRequest)
| EvIamPolicyClientClose
| EvLog (level : Level) (msg : string) (args : list Attr).

Definition isDelete (e : Event) : bool :=
  match e with EvDeleteServiceAccount _ => true | _ => false end.

Section Gcputils.
Context {W : Type} `{!IamClient W, !IamPolicyClient W}.

Abbreviation M := (@Eff.M W Event).

Definition slog (level : Level) (msg : string) (args : list Attr)
  : M unit :=
  Eff.emit (EvLog level msg args).

(** Lines 41-49. *)
Definition saRequest (projectID clientID displayName : string)
  : CreateServiceAccountRequest :=
  {| csa_Name := "projects/" +:+ projectID;
     csa_ServiceAccount :=
       {| sa_Name := ""; sa_Email := "";
          sa_DisplayName := displayName;
          sa_Description := "M2M client SA for " +:+ clientID |};
     csa_AccountId := clientID |}.

(** Lines 63-68. *)
Definition keyRequest (createdSA : ServiceAccount)
  : CreateServiceAccountKeyRequest :=
  {| csk_Name := sa_Name createdSA;
     csk_KeyAlgorithm := KEY_ALG_RSA_2048;
     csk_PrivateKeyType := TYPE_GOOGLE_CREDENTIALS_FILE |}.

(** Lines 41-97, the part of [NewM2MServiceAccount] that runs between the
    creation of the client and the deferred [Close]. *)
Definition NewM2MServiceAccount_body
    (projectID clientID displayName : string)
  : M (option M2MServiceAccount * option error) :=
  let saRequest := saRequest projectID clientID displayName in
  slog LevelInfo "Creating SA named %s..." [AttrString clientID] ;!
  r ←! Eff.call (EvCreateServiceAccount saRequest)
                (CreateServiceAccount saRequest) ;
  match r with
  | inr err => Eff.ret (None, Some (fmt_Errorf "CreateServiceAccount: " err))
  | inl createdSA =>
      slog LevelInfo "Service Account created"
        [AttrString "email"; AttrString (sa_Email createdSA);
         AttrString "name"; AttrString (sa_Name createdSA)] ;!
      let keyRequest := keyRequest createdSA in
      slog LevelInfo "Generating key for service account"
        [AttrString "account"; AttrString (sa_Email createdSA)] ;!
      r ←! Eff.call (EvCreateServiceAccountKey keyRequest)
                    (CreateServiceAccountKey keyRequest) ;
      match r with
      | inr err =>
          let delReq := {| dsa_Name := sa_Name createdSA |} in
          delErr ←! Eff.call (EvDeleteServiceAccount delReq)
                             (DeleteServiceAccount delReq) ;
          match delErr with
          | Some delErr =>
              slog LevelError "Failed to clean up service account"
                [AttrString "account"; AttrString (sa_Email createdSA);
                 AttrString "error"; AttrError delErr]
          | None => Eff.ret tt
          end ;!
          Eff.ret (None, Some (fmt_Errorf "CreateServiceAccountKey: " err))
      | inl generatedKey =>
          slog LevelInfo "Key created"
            [AttrString "account"; AttrString (sa_Email createdSA);
             AttrString "key ID"; AttrString (key_Name generatedKey)] ;!
          Eff.ret
            (Some {| Email := sa_Email createdSA;
                     PrivateKey :=
                       string_of_list_byte (key_PrivateKeyData generatedKey);
                     KeyID := key_Name generatedKey;
                     DisplayName := sa_DisplayName createdSA;
                     ServiceAccountID := clientID |},
             None)
      end
  end.

(** Lines 29-98. *)
Definition NewM2MServiceAccount (projectID clientID displayName : string)
  : M (option M2MServiceAccount * option error) :=
  err ←! Eff.call EvNewIamClient NewIamClient ;
  match err with
  | Some err => Eff.ret (None, Some (fmt_Errorf "iamadmin.NewIAMClient: " err))
  | None =>
      r ←! NewM2MServiceAccount_body projectID clientID displayName ;
      Eff.call EvIamClientClose IamClient_Close ;!
      Eff.ret r
  end.

(** Lines 102-167; the returned value is the [error]. *)
Definition grantRolesToServiceAccount
    (projectID serviceAccountEmail : string) (roles : list string)
  : M (option error) :=
  err ←! Eff.call EvNewIamPolicyClient NewIamPolicyClient ;
  match err with
  | Some err => Eff.ret (Some (fmt_Errorf "iampolicy.NewIamPolicyClient: " err))
  | None =>
      r ←! (let resource := "projects/" +:+ projectID in
            let getPolicyReq := {| gip_Resource := resource |} in
            r ←! Eff.call (EvGetIamPolicy getPolicyReq)
                          (GetIamPolicy getPolicyReq) ;
            match r with
            | inr err => Eff.ret (Some (fmt_Errorf "GetIamPolicy: " err))
            | inl policy =>
                let member := "serviceAccount:" +:+ serviceAccountEmail in
                let policy := Grant policy member roles in
                let setPolicyReq :=
                  {| sip_Resource := resource; sip_Policy := policy |} in
                r ←! Eff.call (EvSetIamPolicy setPolicyReq)
                              (SetIamPolicy setPolicyReq) ;
                match r with
                | inr err => Eff.ret (Some (fmt_Errorf "SetIamPolicy: " err))
                | inl _ =>
                    slog LevelInfo "Granted roles to service account"
                      [AttrString "roles"; AttrStrings roles;
                       AttrString "account"; AttrString serviceAccountEmail;
                       AttrString "project"; AttrString projectID] ;!
                    Eff.ret None
                end
            end) ;
      Eff.call EvIamPolicyClientClose IamPolicyClient_Close ;!
      Eff.ret r
  end.
End Gcputils.

End Gcputils.

(** ** Base64

    The standard encoding of RFC 4648 with padding, as Go's
    [base64.StdEncoding.EncodeToString] computes it; the reading of
    "Base64 encoded" against which the [PrivateKey] field is compared. *)

Module Base64.

Definition alphabet : string :=
  "ABCDEFGHIJKLMNOPQRSTUVWXYZabcdefghijklmnopqrstuvwxyz0123456789+/".

(** The character of a 6-bit group. *)
Definition digit (n : N) : ascii :=
  match String.get (N.to_nat (n mod 64)) alphabet with
  | Some c => c
  | None => "="%char
  end.

Fixpoint EncodeToString (src : list Byte.byte) : string :=
  match src with
  | [] => EmptyString
  | [a] =>
      let n := (Byte.to_N a * 65536)%N in
      String (digit (n / 262144)) (String (digit (n / 4096)) "==")
  | [a; b] =>
      let n := (Byte.to_N a * 65536 + Byte.to_N b * 256)%N in
      String (digit (n / 262144))
        (String (digit (n / 4096)) (String (digit (n / 64)) "="))
  | a :: b :: c :: rest =>
      let n := (Byte.to_N a * 65536 + Byte.to_N b * 256 + Byte.to_N c)%N in
      String (digit (n / 262144))
        (String (digit (n / 4096))
           (String (digit (n / 64))
              (String (digit n) (EncodeToString rest))))
  end.

End Base64.

(** ** The [authn] package *)

Module Authn.

(** Line 18. *)
Definition ClaimsContextKey : string := "jwt_claims".

(** Lines 23-31. *)
Definition ErrProjectIdMissing : error :=
  errors_New "authn.GcpIdentifyProvider, GCP Project ID missing".

Definition ErrExpectedAudMissing : error :=
  errors_New
    "authn.GcpIdentifyPlatformAuthenticator, expected token Audience missing".

(** Lines 36-39. *)
Record GcpIdentifyPlatformAuthenticatorConfig := mkConfig {
  ExpectedAudience : string;
  GcpProjectId : string
}.

(** Lines 43-49. *)
Record GcpIdentifyPlatformAuthenticator := mkAuthenticator {
  expectedAudience : string;
  expectedIssuer : string;
  publicMethods : gmap string bool
}.

(** *** [strings.TrimSpace]

    On a string of ASCII bytes the function strips the six ASCII space
    characters from both ends; a string with a byte of [0x80] or more goes
    through the Unicode tables, which are left to the library
    ([unicode_TrimSpace] below). *)

Definition asciiSpace (c : ascii) : bool :=
  match nat_of_ascii c with
  | 9 | 10 | 11 | 12 | 13 | 32 => true
  | _ => false
  end.

Fixpoint allASCII (s : string) : bool :=
  match s with
  | EmptyString => true
  | String c rest => Nat.ltb (nat_of_ascii c) 128 && allASCII rest
  end.

Fixpoint trimLeftASCII (s : string) : string :=
  match s with
  | EmptyString => EmptyString
  | String c rest => if asciiSpace c then trimLeftASCII rest else s
  end.

Fixpoint trimRightASCII (s : string) : string :=
  match s with
  | EmptyString => EmptyString
  | String c rest =>
      match trimRightASCII rest with
      | EmptyString =>
          if asciiSpace c then EmptyString else String c EmptyString
      | rest' => String c rest'
      end
  end.

Section Constructor.
(** [strings.TrimSpace] on a string that has a byte of [0x80] or more. *)
Context (unicode_TrimSpace : string → string).

Definition strings_TrimSpace (s : string) : string :=
  if allASCII s then trimRightASCII (trimLeftASCII s)
  else unicode_TrimSpace s.

(** Lines 53-70. *)
Definition NewGcpIdentityPlatformValidator
    (conf : GcpIdentifyPlatformAuthenticatorConfig)
    (publicMethods : gmap string bool)
  : option GcpIdentifyPlatformAuthenticator * option error :=
  if decide (strings_TrimSpace (GcpProjectId conf) = "")
  then (None, Some ErrProjectIdMissing)
  else if decide (strings_TrimSpace (ExpectedAudience conf) = "")
  then (None, Some ErrExpectedAudMissing)
  else (Some {| expectedIssuer :=
                  "https://securetoken.google.com/" +:+ GcpProjectId conf;
                expectedAudience := ExpectedAudience conf;
                publicMethods := publicMethods |},
        None).

(** [s] is empty once [strings.TrimSpace] has run on it. *)
Definition blank (s : string) : Prop := strings_TrimSpace s = "".
End Constructor.

(** [s] is made of ASCII space characters, if of any. *)
Fixpoint asciiSpaces (s : string) : bool :=
  match s with
  | EmptyString => true
  | String c rest => asciiSpace c && asciiSpaces rest
  end.

Section Authn.
(** The type of a decoded claim value (Go's [interface{}]). *)
Context {ClaimValue : Type}.

(** [idtoken.Payload]. *)
Record Payload := mkPayload {
  Issuer : string;
  Audience : string;
  Expires : Z;
  IssuedAt : Z;
  Subject : string;
  Claims : gmap string ClaimValue
}.

(** A [context.Context] as the interceptor sees it: the context of an
    incoming call, which carries the transport stream (and so the method
    name, when there is one) and the request metadata, under any number
    of [context.WithValue] layers. *)
Inductive Context :=
| Incoming (method : option string) (md : gmap string (list string))
| WithValue (parent : Context) (key : string) (val : gmap string ClaimValue).

(** [ctx.Value(key)] for a string key. *)
Fixpoint Value (ctx : Context) (key : string)
  : option (gmap string ClaimValue) :=
  match ctx with
  | Incoming _ _ => None
  | WithValue parent k v => if decide (k = key) then Some v
                            else Value parent key
  end.

(** The libraries [Authenticate] calls: [grpc],
    [go-grpc-middleware/auth] and [idtoken].  [NewValidator] and
    [Validate] reach the network, so they answer in a world [W]. *)
Class Library (W : Type) := {
  Validator : Type;
  grpc_Method : Context → string * bool;
  auth_AuthFromMD : Context → string → result string;
  idtoken_NewValidator : Context → W → result Validator * W;
  Validator_Validate :
    Validator → Context → string → string → W → result Payload * W
}.

Inductive Attr :=
| AttrString (s : string)
| AttrError (e : error)
| AttrAny (v : option ClaimValue).

Inductive Event :=
| EvMethod
| EvAuthFromMD (expectedScheme : string)
| EvNewValidator
| EvValidate (idToken audience : string)
| EvLog (level : Level) (msg : string) (args : list Attr).

(** The events in which the bearer token is read or checked. *)
Definition touchesToken (e : Event) : bool :=
  match e with
  | EvAuthFromMD _ | EvNewValidator | EvValidate _ _ => true
  | _ => false
  end.

Context {W : Type} `{!Library W}.

Abbreviation M := (@Eff.M W Event).

Definition slog (level : Level) (msg : string) (args : list Attr)
  : M unit :=
  Eff.emit (EvLog level msg args).

(** Lines 87-136: [Authenticate] from the extraction of the token on. *)
Definition authenticateToken (v : GcpIdentifyPlatformAuthenticator)
    (ctx : Context) : M (option Context * option error) :=
  r ←! Eff.call (EvAuthFromMD "bearer")
                (λ w, (auth_AuthFromMD ctx "bearer", w)) ;
  match r with
  | inr err =>
      slog LevelError
        "authn.GcpIdentifyPlatformAuthenticator, failed to parse token"
        [AttrString "error"; AttrError err] ;!
      Eff.ret (None, Some (status_Error Unauthenticated
                             "Authorization token not provided"))
  | inl token =>
      r ←! Eff.call EvNewValidator (idtoken_NewValidator ctx) ;
      match r with
      | inr err =>
          slog LevelError
            "authn.GcpIdentifyPlatformAuthenticator, failed to token validator"
            [AttrString "error"; AttrError err] ;!
          Eff.ret (None, Some (status_Error Internal
                                 "Authentication service error"))
      | inl validator =>
          r ←! Eff.call (EvValidate token (expectedAudience v))
                 (Validator_Validate validator ctx token
                    (expectedAudience v)) ;
          match r with
          | inr err =>
              slog LevelError
                "authn.GcpIdentifyPlatformAuthenticator, token validation failed"
                [AttrString "error"; AttrError err] ;!
              Eff.ret (None, Some (status_Error Unauthenticated
                                     "Invalid authentication token"))
          | inl payload =>
              if decide (Issuer payload ≠ expectedIssuer v) then
                slog LevelError
                  "authn.GcpIdentifyPlatformAuthenticator, invalid token issuer"
                  [AttrString "expected"; AttrString (expectedIssuer v);
                   AttrString "actual"; AttrString (Issuer payload)] ;!
                Eff.ret (None, Some (status_Error Unauthenticated
                                       "Invalid token issuer"))
              else
                slog LevelDebug "successfully authenticated"
                  [AttrString "subject"; AttrString (Subject payload);
                   AttrString "email"; AttrAny (Claims payload !! "email")] ;!
                Eff.ret (Some (WithValue ctx ClaimsContextKey
                                 (Claims payload)),
                         None)
          end
      end
  end.

(** Lines 76-137. *)
Definition Authenticate (v : GcpIdentifyPlatformAuthenticator)
    (ctx : Context) : M (option Context * option error) :=
  mo ←! Eff.call EvMethod (λ w, (grpc_Method ctx, w)) ;
  let '(method, ok) := mo in
  if ok then
    if decide (is_Some (publicMethods v !! method)) then
      slog LevelDebug
        ("Skipping authentication for public method: " +:+ method) [] ;!
      Eff.ret (Some ctx, None)
    else authenticateToken v ctx
  else authenticateToken v ctx.

(** The call is not let through as public: the method name is not
    resolved, or it is no key of [publicMethods]. *)
Definition nonPublic (v : GcpIdentifyPlatformAuthenticator)
    (ctx : Context) : Prop :=
  (grpc_Method ctx).2 = false
  ∨ publicMethods v !! (grpc_Method ctx).1 = None.
End Authn.

Arguments Payload : clear implicits.
Arguments Context : clear implicits.
Arguments Library : clear implicits.
Arguments Attr : clear implicits.
Arguments Event : clear implicits.

End Authn.

(** ** [environ/unmarshal.go] *)

Module Environ.

(** Line 12, applied to its two arguments. *)
Definition msgInvalidValueFmt (val typeName : string) : string :=
  "invalid value '" +:+ val +:+ "' for type '" +:+ typeName +:+ "'".

(** Lines 14-23. *)
Definition ErrMissingEnvVariable : error :=
  errors_New "environ, missing env variable".
Definition ErrNotSupportedTypeFound : error :=
  errors_New "environ, env type not supported".
Definition ErrMalformedTag : error := errors_New "environ, malformed tag".

(** *** [strings.Split] on [","] and [strings.EqualFold] *)

Fixpoint strings_Split_comma (s : string) : list string :=
  match s with
  | EmptyString => [EmptyString]
  | String c rest =>
      if decide (c = ","%char) then EmptyString :: strings_Split_comma rest
      else match strings_Split_comma rest with
           | part :: parts => String c part :: parts
           | [] => [String c EmptyString]
           end
  end.

Definition toLowerASCII (c : ascii) : ascii :=
  let n := nat_of_ascii c in
  if Nat.leb 65 n && Nat.leb n 90 then ascii_of_nat (n + 32) else c.

Fixpoint lowerASCII (s : string) : string :=
  match s with
  | EmptyString => EmptyString
  | String c rest => String (toLowerASCII c) (lowerASCII rest)
  end.

(** [strings.EqualFold(s, t)] for a [t] of lower-case ASCII letters none of
    which is [k] or [s], the two letters that fold with a rune outside
    ASCII: equality up to the case of ASCII letters. *)
Definition strings_EqualFold (s t : string) : bool :=
  bool_decide (lowerASCII s = lowerASCII t).

(** Lines 126-140.  The named results [envVar], [optional] and [err] are the
    state of the loop over the parts. *)
Definition parseTagValue_step (st : string * bool * option error)
    (part : string) : string * bool * option error :=
  let '(envVar, optional, err) := st in
  if strings_EqualFold part "optional" then (envVar, true, err)
  else if decide (envVar = "") then (part, optional, err)
  else (envVar, optional, Some ErrMalformedTag).

Definition parseTagValue (value : string) : string * bool * option error :=
  fold_left parseTagValue_step (strings_Split_comma value)
            (EmptyString, false, None).

(** *** The struct under reflection *)

(** [reflect.Kind]. *)
Inductive Kind :=
| Invalid | Bool | Int | Int8 | Int16 | Int32 | Int64
| Uint | Uint8 | Uint16 | Uint32 | Uint64 | Uintptr
| Float32 | Float64 | Complex64 | Complex128
| Array | Chan | Func | Interface | Map | Pointer | Slice
| String_ | Struct | UnsafePointer.

Section Environ.
(** [strconv]: the parsers, the type of the floats they produce and the
    size of [int]. *)
Class Strconv := {
  Float : Type;
  IntSize : nat;
  ParseBool : string → result bool;
  ParseFloat : string → nat → result Float;
  ParseInt : string → Z → nat → result Z
}.
Context `{!Strconv}.

(** What a field holds, as far as [SetBool], [SetString], [SetFloat] and
    [SetInt] write it; [VOther] is a value of any other kind. *)
Inductive FieldValue :=
| VBool (b : bool)
| VString (s : string)
| VFloat (f : Float)
| VInt (z : Z)
| VOther.

(** Field [i] of the struct: [v.Field(i)] and [t.Field(i)] together.
    [f_Tag] is [fieldType.Tag.Lookup("env")], [None] when the key is
    absent. *)
Record Field := mkField {
  f_CanSet : bool;
  f_Tag : option string;
  f_Kind : Kind;
  f_TypeName : string;
  f_Value : FieldValue
}.

Definition set (f : Field) (v : FieldValue) : Field :=
  mkField (f_CanSet f) (f_Tag f) (f_Kind f) (f_TypeName f) v.

(** [fieldType.Type.Bits()] on the kinds for which the source calls it. *)
Definition Bits (k : Kind) : nat :=
  match k with
  | Int => IntSize
  | Int32 | Float32 => 32
  | Int64 | Float64 => 64
  | _ => 0
  end.

(** [os.LookupEnv]. *)
Definition os_LookupEnv (env : gmap string string) (key : string)
  : string * bool :=
  match env !! key with
  | Some val => (val, true)
  | None => (EmptyString, false)
  end.

(** Lines 36-116: one iteration of the loop over the fields.  The result
    is the field after the iteration and what the iteration appends to
    [errs]; every [continue] ends the iteration with the field as it
    was. *)
Definition Unmarshal_field (env : gmap string string) (field : Field)
  : Field * list error :=
  if negb (f_CanSet field) then (field, [])
  else
  match f_Tag field with
  | None => (field, [])
  | Some tagEncoded =>
    let '(tag, optional, err) := parseTagValue tagEncoded in
    match err with
    | Some _ =>
        let errMsg := "env struct tag '" +:+ tagEncoded +:+ "' malformed" in
        (field, [fmt_Errorf (errMsg +:+ "; ") ErrMalformedTag])
    | None =>
      let '(val, ok) := os_LookupEnv env tag in
      if negb ok && negb optional then
        let errMsg := "required '" +:+ tag +:+ "' missing" in
        (field, [fmt_Errorf (errMsg +:+ "; ") ErrMissingEnvVariable])
      else if negb ok then (field, [])
      else
      match f_Kind field with
      | Bool =>
          match ParseBool val with
          | inr err =>
              let errMsg := msgInvalidValueFmt val (f_TypeName field) in
              (field, [fmt_Errorf (errMsg +:+ "; ") err])
          | inl boolVal => (set field (VBool boolVal), [])
          end
      | String_ => (set field (VString val), [])
      | Float32 | Float64 =>
          match ParseFloat val (Bits (f_Kind field)) with
          | inr err =>
              let errMsg := msgInvalidValueFmt val (f_TypeName field) in
              (field, [fmt_Errorf (errMsg +:+ "; ") err])
          | inl floatVal => (set field (VFloat floatVal), [])
          end
      | Int | Int32 | Int64 =>
          match ParseInt val 10 (Bits (f_Kind field)) with
          | inr err =>
              let errMsg := msgInvalidValueFmt val (f_TypeName field) in
              (field, [fmt_Errorf (errMsg +:+ "; ") err])
          | inl intVal => (set field (VInt intVal), [])
          end
      | _ =>
          let errMsg :=
            "found type '" +:+ f_TypeName field +:+ "' is not supported" in
          (field, [fmt_Errorf (errMsg +:+ "; ") ErrNotSupportedTypeFound])
      end
    end
  end.

(** Lines 35-117: iteration [i] on the struct [v] and the slice [errs]. *)
Definition Unmarshal_iter (env : gmap string string)
    (st : list Field * list error) (i : nat) : list Field * list error :=
  let '(v, errs) := st in
  match v !! i with
  | None => st
  | Some field =>
      let '(field', es) := Unmarshal_field env field in
      (<[i := field']> v, errs ++ es)
  end.

(** Lines 30-124.  [config] points to the struct; the result is the struct
    after the call and the returned [error]. *)
Definition Unmarshal (env : gmap string string) (config : list Field)
  : list Field * option error :=
  let '(v, errs) :=
    fold_left (Unmarshal_iter env) (seq 0 (length config)) (config, []) in
  (v, if Nat.ltb 0 (length errs) then Some (errors_Join errs) else None).

(** What the iteration on one field leaves in the field, and what it
    appends to [errs]. *)
Definition fieldAfter (env : gmap string string) (field : Field) : Field :=
  (Unmarshal_field env field).1.
Definition fieldErrors (env : gmap string string) (field : Field)
  : list error :=
  (Unmarshal_field env field).2.
End Environ.

End Environ.

(** ** Test doubles

    Small executable stand-ins for the remote services and libraries, on
    which the embedded functions run. *)

Module Doubles.

(** *** A cloud project *)

(** The ids of the service accounts of the project, whether the project may
    mint keys, and whether accounts may be deleted. *)
Record Cloud := mkCloud {
  accounts : list string;
  keysEnabled : bool;
  deletable : bool
}.

#[global] Instance cloudIam : Gcputils.IamClient Cloud := {|
  Gcputils.NewIamClient w := (None, w);
  Gcputils.CreateServiceAccount req w :=
    let id := Gcputils.csa_AccountId req in
    if bool_decide (id ∈ accounts w)
    then (inr (errors_New "already exists"), w)
    else
      let email := id +:+ "@x.iam" in
      (inl {| Gcputils.sa_Name :=
                Gcputils.csa_Name req +:+ "/serviceAccounts/" +:+ email;
              Gcputils.sa_Email := email;
              Gcputils.sa_DisplayName :=
                Gcputils.sa_DisplayName (Gcputils.csa_ServiceAccount req);
              Gcputils.sa_Description :=
                Gcputils.sa_Description (Gcputils.csa_ServiceAccount req) |},
       mkCloud (accounts w ++ [id]) (keysEnabled w) (deletable w));
  Gcputils.CreateServiceAccountKey req w :=
    if keysEnabled w
    then (inl {| Gcputils.key_Name := Gcputils.csk_Name req +:+ "/keys/k1";
                 Gcputils.key_PrivateKeyData := list_byte_of_string "{}" |},
          w)
    else (inr (errors_New "key quota exceeded"), w);
  Gcputils.DeleteServiceAccount req w :=
    if deletable w then (None, w)
    else (Some (errors_New "permission denied"), w);
  Gcputils.IamClient_Close w := (None, w)
|}.

(** A project in which key creation fails and the clean-up fails too. *)
Definition brokenCloud : Cloud := mkCloud [] false false.

(** A project in which everything succeeds. *)
Definition healthyCloud : Cloud := mkCloud [] true true.

(** *** An identity platform *)

(** The tokens the platform has issued, with their payloads. *)
Definition Platform := list (string * Authn.Payload string).

Fixpoint issued (p : Platform) (token : string)
  : option (Authn.Payload string) :=
  match p with
  | [] => None
  | (t, payload) :: rest => if decide (t = token) then Some payload
                            else issued rest token
  end.

Fixpoint baseMethod (ctx : Authn.Context string) : option string :=
  match ctx with
  | Authn.Incoming method _ => method
  | Authn.WithValue parent _ _ => baseMethod parent
  end.

Fixpoint baseMD (ctx : Authn.Context string) : gmap string (list string) :=
  match ctx with
  | Authn.Incoming _ md => md
  | Authn.WithValue parent _ _ => baseMD parent
  end.

(** The text after the first space, when the text before it is [scheme] up
    to case. *)
Fixpoint cutScheme (scheme acc s : string) : option string :=
  match s with
  | EmptyString => None
  | String c rest =>
      if decide (c = " "%char)
      then if Environ.strings_EqualFold acc scheme then Some rest else None
      else cutScheme scheme (acc +:+ String c EmptyString) rest
  end.

#[global] Instance platformLibrary : Authn.Library string Platform := {|
  Authn.Validator := unit;
  Authn.grpc_Method ctx :=
    match baseMethod ctx with
    | Some m => (m, true)
    | None => (EmptyString, false)
    end;
  Authn.auth_AuthFromMD ctx scheme :=
    match baseMD ctx !! "authorization" with
    | Some (val :: _) =>
        match cutScheme scheme EmptyString val with
        | Some token => inl token
        | None => inr (status_Error Unauthenticated "Bad authorization string")
        end
    | _ => inr (status_Error Unauthenticated "Request unauthenticated")
    end;
  Authn.idtoken_NewValidator ctx w := (inl tt, w);
  Authn.Validator_Validate _ ctx token audience w :=
    match issued w token with
    | Some payload =>
        if decide (Authn.Audience payload = audience) then (inl payload, w)
        else (inr (errors_New "idtoken: audience provided does not match"), w)
    | None => (inr (errors_New "idtoken: invalid token"), w)
    end
|}.

(** A payload of the platform for project [proj-1], a platform that has
    issued one token for it, and calls that carry that token. *)
Definition annPayload : Authn.Payload string :=
  {| Authn.Issuer := "https://securetoken.google.com/proj-1";
     Authn.Audience := "my-audience";
     Authn.Expires := 2000000000;
     Authn.IssuedAt := 1900000000;
     Authn.Subject := "ann";
     Authn.Claims := {["email" := "ann@example.com"]} |}.

Definition platform1 : Platform := [("tok1", annPayload)].

Definition ordersCall : Authn.Context string :=
  Authn.Incoming (Some "/shop.Orders/Get")
                 {["authorization" := ["Bearer tok1"]]}.

Definition healthCall : Authn.Context string :=
  Authn.Incoming (Some "/grpc.health.v1.Health/Check") ∅.

(** A context without a transport stream, and without metadata. *)
Definition bareCall : Authn.Context string := Authn.Incoming None ∅.

Definition conf1 : Authn.GcpIdentifyPlatformAuthenticatorConfig :=
  {| Authn.ExpectedAudience := "my-audience";
     Authn.GcpProjectId := "proj-1" |}.

Definition methods1 : gmap string bool :=
  {["/grpc.health.v1.Health/Check" := true]}.

Definition authenticator1 : Authn.GcpIdentifyPlatformAuthenticator :=
  {| Authn.expectedAudience := "my-audience";
     Authn.expectedIssuer := "https://securetoken.google.com/proj-1";
     Authn.publicMethods := methods1 |}.

(** No byte outside ASCII is trimmed by this stand-in. *)
Definition noUnicodeTrim (s : string) : string := s.

(** *** [strconv] *)

Definition ErrSyntax : error := errors_New "invalid syntax".
Definition ErrRange : error := errors_New "value out of range".

Definition ParseBool (str : string) : result bool :=
  if bool_decide (str ∈ ["1"; "t"; "T"; "TRUE"; "true"; "True"])
  then inl true
  else if bool_decide (str ∈ ["0"; "f"; "F"; "FALSE"; "false"; "False"])
  then inl false
  else inr (strconv_NumError "ParseBool" str ErrSyntax).

(** The value of a string of decimal digits, read after [acc]. *)
Fixpoint digits (acc : Z) (s : string) : option Z :=
  match s with
  | EmptyString => Some acc
  | String c rest =>
      let n := Z.of_nat (nat_of_ascii c) in
      if (48 <=? n)%Z && (n <=? 57)%Z then digits (10 * acc + (n - 48)) rest
      else None
  end.

Definition ParseInt (s : string) (base : Z) (bitSize : nat) : result Z :=
  let '(neg, body) :=
    match s with
    | String "+" rest => (false, rest)
    | String "-" rest => (true, rest)
    | _ => (false, s)
    end in
  match body with
  | EmptyString => inr (strconv_NumError "ParseInt" s ErrSyntax)
  | _ =>
      match digits 0 body with
      | None => inr (strconv_NumError "ParseInt" s ErrSyntax)
      | Some un =>
          let cutoff := (2 ^ (Z.of_nat bitSize - 1))%Z in
          if negb neg && (cutoff <=? un)%Z
          then inr (strconv_NumError "ParseInt" s ErrRange)
          else if neg && (cutoff <? un)%Z
          then inr (strconv_NumError "ParseInt" s ErrRange)
          else inl (if neg then - un else un)%Z
      end
  end.

(** Floats are outside this stand-in: no text parses to one. *)
#[global] Instance decimalStrconv : Environ.Strconv := {|
  Environ.Float := Empty_set;
  Environ.IntSize := 64;
  Environ.ParseBool := ParseBool;
  Environ.ParseFloat s _ := inr (strconv_NumError "ParseFloat" s ErrSyntax);
  Environ.ParseInt := ParseInt
|}.

End Doubles.

(** ** Reading the traces of [gcputils] *)

Module GcputilsTrace.
Import Gcputils.

Definition isLog (e : Event) : bool :=
  match e with EvLog _ _ _ => true | _ => false end.

Definition isCall (e : Event) : bool := negb (isLog e).

Definition isCreateKey (e : Event) : bool :=
  match e with EvCreateServiceAccountKey _ => true | _ => false end.

Definition isClose (e : Event) : bool :=
  match e with EvIamClientClose => true | _ => false end.

Definition isSetPolicy (e : Event) : bool :=
  match e with EvSetIamPolicy _ => true | _ => false end.

(** The request [grantRolesToServiceAccount] reads the policy with. *)
Definition getRequest (projectID : string) : GetIamPolicyRequest :=
  {| gip_Resource := "projects/" +:+ projectID |}.

(** The request it writes the policy with, after reading [policy]. *)
Definition setRequest (projectID serviceAccountEmail : string)
    (roles : list string) (policy : Iam.Policy) : SetIamPolicyRequest :=
  {| sip_Resource := "projects/" +:+ projectID;
     sip_Policy :=
       Iam.Grant policy ("serviceAccount:" +:+ serviceAccountEmail) roles |}.

End GcputilsTrace.

(** ** More test doubles *)

Module MoreDoubles.

(** A project in which the account id [billing] is taken. *)
Definition takenCloud : Doubles.Cloud := Doubles.mkCloud ["billing"] true true.

(** A policy service that holds one policy: a read answers it, a write
    replaces it. *)
#[global] Instance policyStore : Gcputils.IamPolicyClient Iam.Policy := {|
  Gcputils.NewIamPolicyClient w := (None, w);
  Gcputils.GetIamPolicy _ w := (inl w, w);
  Gcputils.SetIamPolicy req _ :=
    (inl (Gcputils.sip_Policy req), Gcputils.sip_Policy req);
  Gcputils.IamPolicyClient_Close w := (None, w)
|}.

Definition policy1 : Iam.Policy :=
  Iam.mkPolicy 1 [Iam.mkBinding "roles/viewer" ["user:ann"]] "etag-1".

End MoreDoubles.

(** ** The messages of [Authenticate] *)

Module AuthnMessages.

(** The texts of the [Unauthenticated] errors, lines 95, 117 and 128. *)
Definition unauthenticatedMessages : list string :=
  ["Authorization token not provided"; "Invalid authentication token";
   "Invalid token issuer"].

(** The text of the [Internal] error, line 106. *)
Definition internalMessage : string := "Authentication service error".

(** A configuration whose project id has a leading space. *)
Definition paddedConf : Authn.GcpIdentifyPlatformAuthenticatorConfig :=
  {| Authn.ExpectedAudience := "my-audience";
     Authn.GcpProjectId := " proj-1" |}.

Definition paddedAuthenticator : Authn.GcpIdentifyPlatformAuthenticator :=
  {| Authn.expectedAudience := "my-audience";
     Authn.expectedIssuer := "https://securetoken.google.com/ proj-1";
     Authn.publicMethods := Doubles.methods1 |}.

(** A call without a token, and a call from a previous interceptor that
    left a value in the context. *)
Definition anonymousCall : Authn.Context string :=
  Authn.Incoming (Some "/shop.Orders/Get") ∅.

Definition tracedCall : Authn.Context string :=
  Authn.WithValue Doubles.ordersCall "trace" {["id" := "t-1"]}.

(** The authenticator of [Doubles.authenticator1] with the public method
    listed as [false]. *)
Definition authenticator1' : Authn.GcpIdentifyPlatformAuthenticator :=
  {| Authn.expectedAudience := "my-audience";
     Authn.expectedIssuer := "https://securetoken.google.com/proj-1";
     Authn.publicMethods := {["/grpc.health.v1.Health/Check" := false]} |}.

(** The libraries of [Doubles.platformLibrary] with an identity platform
    that cannot be reached: no validator can be built. *)
#[global] Instance offlineLibrary : Authn.Library string unit := {|
  Authn.Validator := unit;
  Authn.grpc_Method := Authn.grpc_Method (Library := Doubles.platformLibrary);
  Authn.auth_AuthFromMD :=
    Authn.auth_AuthFromMD (Library := Doubles.platformLibrary);
  Authn.idtoken_NewValidator _ w :=
    (inr (errors_New "idtoken: credentials not found"), w);
  Authn.Validator_Validate _ _ _ _ w :=
    (inr (errors_New "idtoken: invalid token"), w)
|}.

End AuthnMessages.

(** ** Reading tags and results of [Unmarshal] *)

Module EnvironTag.
Import Environ.

(** The part is the word [optional], in any case. *)
Definition isOptional (part : string) : bool :=
  strings_EqualFold part "optional".

(** The parts of a tag that are not the word [optional]. *)
Definition tagNames (value : string) : list string :=
  List.filter (λ part, negb (isOptional part)) (strings_Split_comma value).

(** A list of strings without its leading empty strings. *)
Fixpoint dropEmpty (parts : list string) : list string :=
  match parts with
  | EmptyString :: rest => dropEmpty rest
  | _ => parts
  end.

(** The variable a tag names. *)
Definition tagName (tagEncoded : string) : string :=
  (parseTagValue tagEncoded).1.1.

Section Fields.
Context `{!Strconv}.

(** The iteration on the field reports an error. *)
Definition failing (env : gmap string string) (field : Field) : bool :=
  match fieldErrors env field with [] => false | _ => true end.

(** Two fields that differ in their value at most. *)
Definition sameShape (f g : Field) : Prop :=
  f_CanSet f = f_CanSet g ∧ f_Tag f = f_Tag g ∧
  f_Kind f = f_Kind g ∧ f_TypeName f = f_TypeName g.
End Fields.

End EnvironTag.

(** ** [environ/environment.go] *)

Module Environment.

(** Lines 10-15. *)
Definition ErrInvalidEnvironment : error := errors_New "invalid environment".
Definition ErrEnvironmentMissing : error :=
  errors_New "environment was not provided".

Definition environmentVarName : string := "ENVIRONMENT".

(** Lines 17-25: [type Environment int] and its constants. *)
Definition Environment : Type := Z.

Definition Unknown : Environment := 0%Z.
Definition Development : Environment := 1%Z.
Definition Staging : Environment := 2%Z.
Definition Production : Environment := 3%Z.
Definition Test : Environment := 4%Z.

(** Lines 28-43: the method [String], its cases in the order of the
    source. *)
Definition Environment_String (e : Environment) : string :=
  if decide (e = Test) then "test"
  else if decide (e = Development) then "dev"
  else if decide (e = Staging) then "stg"
  else if decide (e = Production) then "prd"
  else if decide (e = Unknown) then "unknown"
  else "".

Section Parse.
(** [strings.ToLower] on a string that has a byte of [0x80] or more; on a
    string of ASCII bytes the function lowers the letters [A] to [Z]. *)
Context (unicode_ToLower : string → string).

Definition strings_ToLower (s : string) : string :=
  if Authn.allASCII s then Environ.lowerASCII s else unicode_ToLower s.

(** Lines 47-61. *)
Definition ParseEnvironment (s : string) : Environment * option error :=
  let s := strings_ToLower s in
  if bool_decide (s ∈ ["test"; "testing"; "tst"]) then (Test, None)
  else if bool_decide (s ∈ ["dev"; "development"]) then (Development, None)
  else if bool_decide (s ∈ ["stg"; "stage"; "staging"]) then (Staging, None)
  else if bool_decide (s ∈ ["prd"; "prod"; "production"])
  then (Production, None)
  else (Unknown, Some ErrInvalidEnvironment).

(** [os.Getenv]: the value of the variable, empty when it is not set. *)
Definition os_Getenv (env : gmap string string) (key : string) : string :=
  match env !! key with
  | Some val => val
  | None => EmptyString
  end.

(** Lines 64-76. *)
Definition GetEnvironment (env : gmap string string)
  : Environment * option error :=
  let e := os_Getenv env environmentVarName in
  if decide (e = "") then (Unknown, Some ErrEnvironmentMissing)
  else
    let '(env', err) := ParseEnvironment e in
    match err with
    | Some err =>
        (Unknown, Some (fmt_Errorf "environment misconfigured: " err))
    | None => (env', None)
    end.

(** One of the four environments that have a name to parse. *)
Definition named (e : Environment) : Prop := (1 ≤ e ≤ 4)%Z.
End Parse.

End Environment.

(** * Properties of the role-grant merge *)

Module IamFacts.
Import Iam.

Lemma foundMember_elem_of member members :
  foundMember member members = true ↔ member ∈ members.
Proof.
  induction members as [|m rest IH]; simpl.
  - split; [discriminate | intros H; inversion H].
  - destruct (decide (m = member)) as [->|Hne].
    + split; [intros _; left | reflexivity].
    + rewrite IH. split; [intros H; by right|].
      intros H. apply elem_of_cons in H as [H|H]; [congruence | done].
Qed.

Lemma foundMember_false member members :
  foundMember member members = false ↔ member ∉ members.
Proof.
  rewrite <- foundMember_elem_of.
  destruct (foundMember member members); split; intros H; try done.
Qed.

Lemma Role_addMember member b : Role (addMember member b) = Role b.
Proof. unfold addMember. by destruct (foundMember member (Members b)). Qed.

Lemma addMember_elem_of member b : member ∈ Members (addMember member b).
Proof.
  unfold addMember. destruct (foundMember member (Members b)) eqn:E.
  - by apply foundMember_elem_of.
  - simpl. apply elem_of_app. right. left.
Qed.

Lemma addMember_present member b :
  member ∈ Members b → addMember member b = b.
Proof.
  intros H. unfold addMember.
  apply foundMember_elem_of in H. by rewrite H.
Qed.

(** The two ways the scan of the bindings ends. *)
Lemma grantInBindings_cases member bindings roleName :
  (Forall (λ b, Role b ≠ roleName) bindings ∧
   grantInBindings roleName member bindings = (false, bindings)) ∨
  (∃ pre b post,
     bindings = pre ++ b :: post ∧
     Forall (λ b, Role b ≠ roleName) pre ∧
     Role b = roleName ∧
     grantInBindings roleName member bindings
     = (true, pre ++ addMember member b :: post)).
Proof.
  induction bindings as [|b rest IH]; simpl.
  - left. split; [constructor | reflexivity].
  - destruct (decide (Role b = roleName)) as [Heq|Hne].
    + right. exists [], b, rest. repeat split; [constructor | done].
    + destruct IH as [[Hall Hg] | (pre & b0 & post & -> & Hpre & Hb0 & Hg)];
        rewrite Hg.
      * left. split; [by constructor | reflexivity].
      * right. exists (b :: pre), b0, post.
        repeat split; [by constructor | done].
Qed.

(** The two ways one iteration of the outer loop ends: no binding has the
    role and one is appended, or the first binding with the role receives
    the member. *)
Lemma grantRole_cases member bindings roleName :
  (Forall (λ b, Role b ≠ roleName) bindings ∧
   grantRole member bindings roleName
   = bindings ++ [mkBinding roleName [member]]) ∨
  (∃ pre b post,
     bindings = pre ++ b :: post ∧
     Forall (λ b, Role b ≠ roleName) pre ∧
     Role b = roleName ∧
     grantRole member bindings roleName = pre ++ addMember member b :: post).
Proof.
  unfold grantRole.
  destruct (grantInBindings_cases member bindings roleName)
    as [[Hall Hg] | (pre & b0 & post & Hb & Hpre & Hb0 & Hg)]; rewrite Hg.
  - by left.
  - right. by exists pre, b0, post.
Qed.

(** *** What one iteration does to the members of a role *)

Lemma membersOf_app role bs1 bs2 :
  membersOf role (bs1 ++ bs2) = membersOf role bs1 ++ membersOf role bs2.
Proof. unfold membersOf. by rewrite filter_app, fmap_app, concat_app. Qed.

Lemma membersOf_cons role b bs :
  membersOf role (b :: bs)
  = (if decide (Role b = role) then Members b else []) ++ membersOf role bs.
Proof.
  unfold membersOf. rewrite filter_cons.
  by destruct (decide (Role b = role)).
Qed.

Lemma addMember_set member b :
  list_to_set (Members (addMember member b))
  =@{gset string} list_to_set (Members b) ∪ {[member]}.
Proof.
  unfold addMember. destruct (foundMember member (Members b)) eqn:E.
  - apply foundMember_elem_of in E.
    assert (member ∈@{gset string} list_to_set (Members b))
      by (by apply elem_of_list_to_set).
    set_solver.
  - simpl. rewrite list_to_set_app_L. set_solver.
Qed.

Lemma membersOf_grantRole member bindings roleName role :
  list_to_set (membersOf role (grantRole member bindings roleName))
  =@{gset string}
  list_to_set (membersOf role bindings)
  ∪ (if decide (roleName = role) then {[member]} else ∅).
Proof.
  destruct (grantRole_cases member bindings roleName)
    as [[Hall ->] | (pre & b & post & -> & Hpre & Hb & ->)].
  - rewrite membersOf_app, list_to_set_app_L, membersOf_cons. simpl.
    destruct (decide (roleName = role)); simpl; set_solver.
  - rewrite !membersOf_app, !membersOf_cons, !list_to_set_app_L.
    rewrite Role_addMember, Hb.
    destruct (decide (roleName = role)).
    + rewrite addMember_set. set_solver.
    + simpl. set_solver.
Qed.

Lemma membersOf_grantRoles member roles bindings role :
  list_to_set (membersOf role (grantRoles member roles bindings))
  =@{gset string}
  list_to_set (membersOf role bindings)
  ∪ (if decide (role ∈ roles) then {[member]} else ∅).
Proof.
  unfold grantRoles. revert bindings.
  induction roles as [|r roles IH]; intros bindings; simpl.
  - destruct (decide (role ∈ [])) as [H|_]; [inversion H | set_solver].
  - rewrite IH, membersOf_grantRole.
    destruct (decide (r = role)) as [->|Hne].
    + destruct (decide (role ∈ role :: roles)) as [_|H];
        [| exfalso; apply H; left].
      destruct (decide (role ∈ roles)); set_solver.
    + destruct (decide (role ∈ roles)) as [Hin|Hnin].
      * destruct (decide (role ∈ r :: roles)) as [_|H];
          [set_solver | exfalso; apply H; by right].
      * destruct (decide (role ∈ r :: roles)) as [H|_]; [|set_solver].
        apply elem_of_cons in H as [H|H]; congruence.
Qed.

(** *** Order preservation, one iteration and the whole loop *)

Lemma appendedOnly_refl member roles b : appendedOnly member roles b b.
Proof. split; [reflexivity | by left]. Qed.

Lemma appendedOnly_addMember member b :
  appendedOnly member [Role b] b (addMember member b).
Proof.
  split; [apply Role_addMember|].
  unfold addMember. destruct (foundMember member (Members b)) eqn:E.
  - by left.
  - right. apply foundMember_false in E. repeat split; [done | left].
Qed.

Lemma appendedOnly_weaken member roles roles' b b' :
  roles ⊆ roles' →
  appendedOnly member roles b b' → appendedOnly member roles' b b'.
Proof.
  intros Hsub [Hr [Hm | (Hm & Hnin & Hin)]]; split; auto.
Qed.

Lemma freshBinding_weaken member roles roles' b :
  roles ⊆ roles' →
  freshBinding member roles b → freshBinding member roles' b.
Proof. intros Hsub [Hm Hin]. split; auto. Qed.

Lemma appendedOnly_trans member roles b1 b2 b3 :
  appendedOnly member roles b1 b2 → appendedOnly member roles b2 b3 →
  appendedOnly member roles b1 b3.
Proof.
  intros [Hr1 H1] [Hr2 H2]. split; [congruence|].
  destruct H1 as [H1 | (H1 & Hn1 & Hin1)].
  - destruct H2 as [H2 | (H2 & Hn2 & Hin2)].
    + left. congruence.
    + right. rewrite <- H1, <- Hr1. done.
  - destruct H2 as [H2 | (H2 & Hn2 & Hin2)].
    + right. rewrite H2. done.
    + exfalso. apply Hn2. rewrite H1. apply elem_of_app. right. left.
Qed.

Lemma freshBinding_appendedOnly member roles b b' :
  freshBinding member roles b → appendedOnly member roles b b' →
  freshBinding member roles b'.
Proof.
  intros [Hm Hin] [Hr [H | (H & Hn & _)]].
  - split; congruence.
  - exfalso. apply Hn. rewrite Hm. left.
Qed.

Lemma extends_refl member roles bindings :
  extends member roles bindings bindings.
Proof.
  exists bindings, []. rewrite app_nil_r. repeat split; [|constructor].
  induction bindings; constructor; auto using appendedOnly_refl.
Qed.

Lemma extends_weaken member roles roles' bs bs' :
  roles ⊆ roles' →
  extends member roles bs bs' → extends member roles' bs bs'.
Proof.
  intros Hsub (kept & new & -> & Hk & Hn). exists kept, new.
  repeat split.
  - eapply Forall2_impl; [exact Hk|]. eauto using appendedOnly_weaken.
  - eapply Forall_impl; [exact Hn|]. eauto using freshBinding_weaken.
Qed.

Lemma extends_trans member roles bs1 bs2 bs3 :
  extends member roles bs1 bs2 → extends member roles bs2 bs3 →
  extends member roles bs1 bs3.
Proof.
  intros (k1 & n1 & -> & Hk1 & Hn1) (k2 & n2 & -> & Hk2 & Hn2).
  apply Forall2_app_inv_l in Hk2 as (k2a & k2b & Hka & Hkb & ->).
  exists k2a, (k2b ++ n2). rewrite <- app_assoc. repeat split.
  - clear -Hk1 Hka. revert k2a Hka.
    induction Hk1 as [|b1 b2 l1 l2 Hb Hl IH]; intros k2a Hka.
    + inversion Hka. constructor.
    + inversion Hka as [|? b3 ? l3 Hb' Hl']; subst.
      constructor; eauto using appendedOnly_trans.
  - apply Forall_app. split; [|done].
    clear -Hn1 Hkb. induction Hkb as [|b b' l l' Hb Hl IH].
    + constructor.
    + inversion Hn1; subst. constructor;
        eauto using freshBinding_appendedOnly.
Qed.

Lemma extends_grantRole member bindings roleName :
  extends member [roleName] bindings (grantRole member bindings roleName).
Proof.
  destruct (grantRole_cases member bindings roleName)
    as [[Hall ->] | (pre & b & post & -> & Hpre & Hb & ->)].
  - exists bindings, [mkBinding roleName [member]]. repeat split.
    + induction bindings; constructor; auto using appendedOnly_refl.
      apply IHbindings. by inversion Hall.
    + constructor; [|constructor]. split; [reflexivity | left].
  - exists (pre ++ addMember member b :: post), []. rewrite app_nil_r.
    repeat split; [|constructor].
    apply Forall2_app.
    + clear. induction pre; constructor; auto using appendedOnly_refl.
    + constructor.
      * rewrite <- Hb. apply appendedOnly_addMember.
      * clear. induction post; constructor; auto using appendedOnly_refl.
Qed.

Lemma extends_grantRoles member roles bindings :
  extends member roles bindings (grantRoles member roles bindings).
Proof.
  unfold grantRoles. revert bindings.
  induction roles as [|r roles IH]; intros bindings; simpl.
  - apply extends_refl.
  - eapply extends_trans.
    + eapply extends_weaken; [|apply extends_grantRole].
      intros x Hx. apply list_elem_of_singleton in Hx as ->. left.
    + eapply extends_weaken; [|apply IH]. intros x Hx. by right.
Qed.

(** *** Idempotence *)

Lemma firstBinding_skip role pre rest :
  Forall (λ b, Role b ≠ role) pre →
  firstBinding role (pre ++ rest) = firstBinding role rest.
Proof.
  induction 1 as [|b pre Hb Hpre IH]; simpl; [done|].
  by destruct (decide (Role b = role)).
Qed.

Lemma firstBinding_hit role b rest :
  Role b = role → firstBinding role (b :: rest) = Some b.
Proof. intros H. simpl. by destruct (decide (Role b = role)). Qed.

Lemma firstBinding_None role bindings :
  Forall (λ b, Role b ≠ role) bindings → firstBinding role bindings = None.
Proof.
  intros H. rewrite <- (app_nil_r bindings). by rewrite firstBinding_skip.
Qed.

Lemma granted_grantRole member bindings role :
  granted member role (grantRole member bindings role).
Proof.
  destruct (grantRole_cases member bindings role)
    as [[Hall ->] | (pre & b & post & -> & Hpre & Hb & ->)].
  - exists (mkBinding role [member]).
    rewrite firstBinding_skip, firstBinding_hit by done. split; [done | left].
  - exists (addMember member b).
    rewrite firstBinding_skip, firstBinding_hit
      by (done || by rewrite Role_addMember).
    split; [done | apply addMember_elem_of].
Qed.

Lemma grantRole_granted member bindings role :
  granted member role bindings → grantRole member bindings role = bindings.
Proof.
  intros (b0 & Hf & Hin).
  destruct (grantRole_cases member bindings role)
    as [[Hall ->] | (pre & b & post & -> & Hpre & Hb & ->)].
  - rewrite firstBinding_None in Hf by done. discriminate.
  - rewrite firstBinding_skip, firstBinding_hit in Hf by done.
    injection Hf as <-. by rewrite addMember_present.
Qed.

Lemma granted_extends member roles role bs bs' :
  extends member roles bs bs' →
  granted member role bs → granted member role bs'.
Proof.
  intros (kept & new & -> & Hk & _) (b0 & Hf & Hin). unfold granted.
  induction Hk as [|b b' l l' [Hr Hm] Hl IH]; simpl in *; [discriminate|].
  rewrite Hr. destruct (decide (Role b = role)).
  - injection Hf as <-. exists b'. split; [done|].
    destruct Hm as [-> | (-> & _)]; [done|].
    apply elem_of_app. by left.
  - by apply IH.
Qed.

Lemma granted_grantRoles member roles bindings :
  Forall (λ r, granted member r (grantRoles member roles bindings)) roles.
Proof.
  unfold grantRoles. revert bindings.
  induction roles as [|r roles IH]; intros bindings; simpl; constructor.
  - eapply granted_extends; [apply extends_grantRoles|].
    apply granted_grantRole.
  - apply IH.
Qed.

Lemma grantRoles_granted member roles bindings :
  Forall (λ r, granted member r bindings) roles →
  grantRoles member roles bindings = bindings.
Proof.
  unfold grantRoles. induction 1 as [|r roles Hr Hroles IH]; simpl; [done|].
  by rewrite (grantRole_granted _ _ _ Hr).
Qed.

Lemma grantRoles_idempotent member roles bindings :
  grantRoles member roles (grantRoles member roles bindings)
  = grantRoles member roles bindings.
Proof. apply grantRoles_granted, granted_grantRoles. Qed.

(** *** The binding the loop looks at *)

Lemma firstMembers_extends member roles role bs bs' v e v' e' :
  extends member roles bs bs' →
  list_to_set (firstMembers role (mkPolicy v bs e))
  ⊆@{gset string} list_to_set (firstMembers role (mkPolicy v' bs' e')) ∧
  list_to_set (firstMembers role (mkPolicy v' bs' e'))
  ⊆@{gset string} list_to_set (firstMembers role (mkPolicy v bs e))
                  ∪ (if decide (role ∈ roles) then {[member]} else ∅).
Proof.
  unfold firstMembers. simpl.
  intros (kept & new & -> & Hk & Hn).
  induction Hk as [|b b' l l' [Hr Hm] Hl IH]; simpl.
  - split; [set_solver|].
    destruct (firstBinding role new) as [b|] eqn:E; [|set_solver].
    assert (b ∈ new ∧ Role b = role) as [Hb Hrole].
    { clear -E. induction new as [|x new IH]; simpl in E; [discriminate|].
      destruct (decide (Role x = role)).
      - injection E as <-. split; [left | done].
      - destruct (IH E). split; [by right | done]. }
    rewrite Forall_forall in Hn. destruct (Hn _ Hb) as [-> Hin].
    rewrite Hrole in Hin. destruct (decide (role ∈ roles)); [|done].
    simpl. set_solver.
  - rewrite Hr. destruct (decide (Role b = role)) as [Heq|Hne]; [|exact IH].
    destruct Hm as [-> | (-> & _ & Hin)]; [set_solver|].
    rewrite Heq in Hin. destruct (decide (role ∈ roles)); [|done].
    rewrite list_to_set_app_L. simpl. set_solver.
Qed.

Lemma firstMembers_grantRoles member roles bindings role v e :
  role ∈ roles →
  list_to_set
    (firstMembers role (mkPolicy v (grantRoles member roles bindings) e))
  =@{gset string}
  list_to_set (firstMembers role (mkPolicy v bindings e)) ∪ {[member]}.
Proof.
  intros Hin.
  destruct (firstMembers_extends member roles role bindings
              (grantRoles member roles bindings) v e v e
              (extends_grantRoles _ _ _)) as [H1 H2].
  destruct (decide (role ∈ roles)); [|done].
  pose proof (granted_grantRoles member roles bindings) as Hg.
  rewrite Forall_forall in Hg. destruct (Hg _ Hin) as (b & Hf & Hb).
  assert (member ∈@{gset string} list_to_set
    (firstMembers role (mkPolicy v (grantRoles member roles bindings) e))).
  { unfold firstMembers. simpl. rewrite Hf. by apply elem_of_list_to_set. }
  set_solver.
Qed.

(** *** The policy invariant *)

Lemma wfBindings_grantRole member bindings roleName :
  wfBindings bindings → wfBindings (grantRole member bindings roleName).
Proof.
  intros [Hroles Hmem].
  destruct (grantRole_cases member bindings roleName)
    as [[Hall ->] | (pre & b & post & -> & Hpre & Hb & ->)]; split.
  - rewrite fmap_app. simpl. apply NoDup_app. repeat split; [done | |].
    + intros r Hr Hr'. apply list_elem_of_singleton in Hr' as ->.
      apply list_elem_of_fmap in Hr as (b & Hb & Hin).
      rewrite Forall_forall in Hall. by apply (Hall b).
    + apply NoDup_singleton.
  - apply Forall_app. split; [done|].
    constructor; [|constructor]. simpl. apply NoDup_singleton.
  - rewrite fmap_app in *. simpl in *. by rewrite Role_addMember.
  - apply Forall_app in Hmem as [Hp Hq].
    inversion Hq as [|? ? Hb' Hpost]; subst.
    apply Forall_app. split; [done|]. constructor; [|done].
    unfold addMember. destruct (foundMember member (Members b)) eqn:E; [done|].
    simpl. apply foundMember_false in E.
    apply NoDup_app. repeat split; [done| |].
    + intros x Hx Hx'. apply list_elem_of_singleton in Hx' as ->. done.
    + apply NoDup_singleton.
Qed.

(** *** The properties of [Grant] *)

(** Granting two roles on a policy without bindings gives two bindings, in
    the order of the roles; granting one of them again changes nothing. *)
Example Grant_on_empty_policy :
  let member := "serviceAccount:a@x.iam" in
  let granted := Grant (mkPolicy 1 [] "") member
                       ["roles/viewer"; "roles/editor"] in
  Bindings granted
  = [mkBinding "roles/viewer" [member]; mkBinding "roles/editor" [member]] ∧
  Grant granted member ["roles/viewer"] = granted.
Proof. split; reflexivity. Qed.

(** A role that two bindings name: the member goes to the first of them. *)
Example Grant_on_repeated_role :
  Bindings (Grant (mkPolicy 1 [mkBinding "r" ["a"]; mkBinding "r" ["b"]] "")
                  "m" ["r"])
  = [mkBinding "r" ["a"; "m"]; mkBinding "r" ["b"]].
Proof. reflexivity. Qed.

(** C1.  Granting twice with the same arguments gives the policy that
    granting once gives, and in that policy the member set of every role of
    the list is the set the role had before with the member added; this
    holds of the members of all bindings of the role and of the members of
    the binding the loop looks at. *)
Theorem Grant_idempotent_union (policy : Policy) (member : string)
    (roles : list string) :
  Grant (Grant policy member roles) member roles = Grant policy member roles ∧
  ∀ role, role ∈ roles →
    list_to_set (roleMembers role (Grant policy member roles))
    =@{gset string} list_to_set (roleMembers role policy) ∪ {[member]} ∧
    list_to_set (firstMembers role (Grant policy member roles))
    =@{gset string} list_to_set (firstMembers role policy) ∪ {[member]}.
Proof.
  split.
  - unfold Grant. simpl. by rewrite grantRoles_idempotent.
  - intros role Hin. split.
    + unfold roleMembers, Grant. simpl. rewrite membersOf_grantRoles.
      by destruct (decide (role ∈ roles)).
    + destruct policy as [v bs e]. unfold Grant. simpl.
      by apply firstMembers_grantRoles.
Qed.

Lemma Grant_idempotent_union_witness :
  let policy := mkPolicy 1 [mkBinding "roles/viewer" ["user:ann"]] "e1" in
  let member := "serviceAccount:a@x.iam" in
  let roles := ["roles/viewer"; "roles/editor"] in
  Grant (Grant policy member roles) member roles = Grant policy member roles ∧
  list_to_set (roleMembers "roles/viewer" (Grant policy member roles))
  =@{gset string}
  list_to_set (roleMembers "roles/viewer" policy) ∪ {[member]}.
Proof.
  intros policy member roles.
  destruct (Grant_idempotent_union policy member roles) as [Hidem Hunion].
  split; [exact Hidem|].
  destruct (Hunion "roles/viewer") as [Hall _]; [|exact Hall].
  apply list_elem_of_In. simpl. tauto.
Defined.

(** C6.  The bindings after [Grant] are the bindings before it, each at its
    index with its role and with its members in their order, to which the
    member is appended at the end or not at all, followed by new bindings
    that hold the member only. *)
Theorem Grant_preserves_order (policy : Policy) (member : string)
    (roles : list string) :
  ∃ kept new,
    Bindings (Grant policy member roles) = kept ++ new ∧
    length kept = length (Bindings policy) ∧
    (∀ i b, Bindings policy !! i = Some b →
       ∃ b', kept !! i = Some b' ∧ Role b' = Role b ∧
             (Members b' = Members b ∨
              (Members b' = Members b ++ [member] ∧
               (member ∉ Members b) ∧ Role b ∈ roles))) ∧
    Forall (λ b, Members b = [member] ∧ Role b ∈ roles) new.
Proof.
  destruct (extends_grantRoles member roles (Bindings policy))
    as (kept & new & Heq & Hkept & Hnew).
  exists kept, new. repeat split; [done | | | done].
  - symmetry. by eapply Forall2_length.
  - intros i b Hi.
    destruct (Forall2_lookup_l _ _ _ _ _ Hkept Hi) as (b' & Hb' & Hr & Hm).
    by exists b'.
Qed.

Lemma Grant_preserves_order_witness :
  ∃ kept new,
    Bindings (Grant (mkPolicy 1 [mkBinding "roles/viewer" ["user:ann"]] "e1")
                    "serviceAccount:a@x.iam" ["roles/viewer"; "roles/editor"])
    = kept ++ new ∧
    length kept = 1.
Proof.
  destruct (Grant_preserves_order
              (mkPolicy 1 [mkBinding "roles/viewer" ["user:ann"]] "e1")
              "serviceAccount:a@x.iam" ["roles/viewer"; "roles/editor"])
    as (kept & new & Heq & Hlen & _).
  by exists kept, new.
Defined.

(** C7.  A policy in which no role has two bindings and no binding lists a
    member twice is still such a policy after [Grant]. *)
Theorem Grant_preserves_invariant (policy : Policy) (member : string)
    (roles : list string) :
  wfPolicy policy → wfPolicy (Grant policy member roles).
Proof.
  unfold wfPolicy, Grant, grantRoles. simpl.
  generalize (Bindings policy) as bindings.
  induction roles as [|roleName roles IH]; intros bindings Hwf; simpl.
  - exact Hwf.
  - apply IH. by apply wfBindings_grantRole.
Qed.

Lemma Grant_preserves_invariant_witness :
  wfPolicy (Grant (mkPolicy 1 [mkBinding "roles/viewer" ["user:ann"]] "e1")
                  "serviceAccount:a@x.iam" ["roles/viewer"; "roles/editor"]).
Proof.
  apply Grant_preserves_invariant. split; simpl.
  - apply NoDup_singleton.
  - constructor; [apply NoDup_singleton | constructor].
Defined.

End IamFacts.

(** * Properties of [NewM2MServiceAccount] *)

Module GcputilsFacts.
Import Gcputils.

(** Unfolds a computation down to the answers of the collaborators. *)
Ltac unfold_run :=
  unfold Eff.run, NewM2MServiceAccount, NewM2MServiceAccount_body,
    Gcputils.slog, Eff.bind, Eff.call, Eff.emit, Eff.ret.

Lemma length_string_of_list_byte (l : list Byte.byte) :
  String.length (string_of_list_byte l) = length l.
Proof.
  unfold string_of_list_byte.
  induction l as [|b l IH]; simpl; [done | by rewrite IH].
Qed.

(** Three bytes become four characters, and a last group of one or two
    bytes is padded to four. *)
Lemma length_EncodeToString_bound (n : nat) (l : list Byte.byte) :
  (length l ≤ n)%nat →
  (length l ≤ String.length (Base64.EncodeToString l))%nat ∧
  (l ≠ [] → (length l < String.length (Base64.EncodeToString l))%nat).
Proof.
  revert l. induction n as [|n IH]; intros l Hn.
  - destruct l; simpl in *; [split; [lia | done] | lia].
  - destruct l as [|a [|b [|c rest]]]; simpl in *.
    + split; [lia | done].
    + split; [lia | intros _; lia].
    + split; [lia | intros _; lia].
    + destruct (IH rest) as [Hle _]; [lia|].
      split; [lia | intros _; lia].
Qed.

Lemma raw_ne_EncodeToString (l : list Byte.byte) :
  l ≠ [] → string_of_list_byte l ≠ Base64.EncodeToString l.
Proof.
  intros Hne Heq.
  destruct (length_EncodeToString_bound (length l) l) as [_ Hlt]; [done|].
  specialize (Hlt Hne). rewrite <- Heq, length_string_of_list_byte in Hlt. lia.
Qed.

Section Provisioning.
Context {W : Type} `{!IamClient W}.

(** A run in which the three remote calls succeed returns the record of
    lines 91-97; its [PrivateKey] is the key data as a string. *)
Lemma NewM2MServiceAccount_success projectID clientID displayName
    (w w1 w2 w3 : W) createdSA generatedKey :
  NewIamClient w = (None, w1) →
  CreateServiceAccount (saRequest projectID clientID displayName) w1
  = (inl createdSA, w2) →
  CreateServiceAccountKey (keyRequest createdSA) w2
  = (inl generatedKey, w3) →
  ∃ w' trace,
    Eff.run (NewM2MServiceAccount projectID clientID displayName) w
    = ((Some {| Email := sa_Email createdSA;
                PrivateKey :=
                  string_of_list_byte (key_PrivateKeyData generatedKey);
                KeyID := key_Name generatedKey;
                DisplayName := sa_DisplayName createdSA;
                ServiceAccountID := clientID |},
        None), w', trace).
Proof.
  intros H1 H2 H3. unfold_run. rewrite H1, H2, H3.
  destruct (IamClient_Close w3) as [c w4]. by eexists _, _.
Qed.
End Provisioning.

(** C2.  Compensation: when the account is created and the key creation
    fails with [keyErr], [NewM2MServiceAccount] issues one
    [DeleteServiceAccount] call, for the created account, and returns no
    record and the error [CreateServiceAccountKey: keyErr], whatever the
    delete call answers; a failure of the delete call is written to the log
    and is not the returned error. *)
Theorem NewM2MServiceAccount_compensation
    {W : Type} `{!IamClient W} (projectID clientID displayName : string)
    (w w1 w2 w3 : W) (createdSA : ServiceAccount) (keyErr : error) :
  NewIamClient w = (None, w1) →
  CreateServiceAccount (saRequest projectID clientID displayName) w1
  = (inl createdSA, w2) →
  CreateServiceAccountKey (keyRequest createdSA) w2 = (inr keyErr, w3) →
  ∃ w' trace,
    Eff.run (NewM2MServiceAccount projectID clientID displayName) w
    = ((None, Some (fmt_Errorf "CreateServiceAccountKey: " keyErr)),
       w', trace) ∧
    List.filter isDelete trace
    = [EvDeleteServiceAccount {| dsa_Name := sa_Name createdSA |}] ∧
    ∀ delErr w4,
      DeleteServiceAccount {| dsa_Name := sa_Name createdSA |} w3
      = (Some delErr, w4) →
      EvLog LevelError "Failed to clean up service account"
        [AttrString "account"; AttrString (sa_Email createdSA);
         AttrString "error"; AttrError delErr] ∈ trace.
Proof.
  intros H1 H2 H3. unfold_run. rewrite H1, H2, H3.
  destruct (DeleteServiceAccount _ w3) as [[delErr|] w4] eqn:Hdel;
    destruct (IamClient_Close w4) as [c w5]; eexists _, _;
    (split; [reflexivity|]); (split; [reflexivity|]).
  - intros delErr' w4' [= <- <-]. simpl.
    apply list_elem_of_In. simpl. tauto.
  - intros delErr' w4' [=].
Qed.

Lemma NewM2MServiceAccount_compensation_witness :
  ∃ w' trace,
    Eff.run (NewM2MServiceAccount "proj" "billing" "Billing")
            Doubles.brokenCloud
    = ((None, Some (fmt_Errorf "CreateServiceAccountKey: "
                      (errors_New "key quota exceeded"))),
       w', trace) ∧
    List.filter isDelete trace
    = [EvDeleteServiceAccount
         {| dsa_Name := "projects/proj/serviceAccounts/billing@x.iam" |}].
Proof.
  edestruct (NewM2MServiceAccount_compensation (W := Doubles.Cloud)
               "proj" "billing" "Billing" Doubles.brokenCloud)
    as (w' & trace & Hrun & Hdel & _); [reflexivity..|].
  by exists w', trace.
Defined.

(** The returned [PrivateKey] is the key data of the remote answer, byte
    for byte; it is the Base64 text of that data for no key data but the
    empty one. *)
Lemma NewM2MServiceAccount_PrivateKey_raw
    {W : Type} `{!IamClient W} (projectID clientID displayName : string)
    (w w1 w2 w3 : W) createdSA generatedKey :
  NewIamClient w = (None, w1) →
  CreateServiceAccount (saRequest projectID clientID displayName) w1
  = (inl createdSA, w2) →
  CreateServiceAccountKey (keyRequest createdSA) w2
  = (inl generatedKey, w3) →
  ∃ account w' trace,
    Eff.run (NewM2MServiceAccount projectID clientID displayName) w
    = ((Some account, None), w', trace) ∧
    PrivateKey account
    = string_of_list_byte (key_PrivateKeyData generatedKey) ∧
    (key_PrivateKeyData generatedKey ≠ [] →
     PrivateKey account
     ≠ Base64.EncodeToString (key_PrivateKeyData generatedKey)).
Proof.
  intros H1 H2 H3.
  destruct (NewM2MServiceAccount_success _ _ _ _ _ _ _ _ _ H1 H2 H3)
    as (w' & trace & Hrun).
  eexists _, w', trace. split; [exact Hrun|]. simpl. split; [done|].
  apply raw_ne_EncodeToString.
Qed.

(** C8.  On a project whose key creation answers the two bytes [{}],
    [NewM2MServiceAccount] succeeds and the [PrivateKey] of the record is
    the text [{}], whereas the Base64 encoding of the key data is
    [e30=]. *)
Theorem NewM2MServiceAccount_PrivateKey_not_Base64 :
  ∃ account w' trace,
    Eff.run (NewM2MServiceAccount "proj" "billing" "Billing")
            Doubles.healthyCloud
    = ((Some account, None), w', trace) ∧
    PrivateKey account = "{}" ∧
    Base64.EncodeToString (list_byte_of_string "{}") = "e30=" ∧
    PrivateKey account ≠ Base64.EncodeToString (list_byte_of_string "{}").
Proof.
  eexists _, _, _. split; [reflexivity|]. simpl.
  split; [reflexivity|]. split; [reflexivity|]. discriminate.
Qed.

(** The policy [grantRolesToServiceAccount] writes is [Grant] of the policy
    it read, for the member [serviceAccount:] followed by the email. *)
Lemma grantRolesToServiceAccount_writes_Grant
    {W : Type} `{!IamPolicyClient W}
    (projectID serviceAccountEmail : string) (roles : list string)
    (w w1 w2 : W) (policy : Iam.Policy) :
  NewIamPolicyClient w = (None, w1) →
  GetIamPolicy {| gip_Resource := "projects/" +:+ projectID |} w1
  = (inl policy, w2) →
  ∃ r w' trace,
    Eff.run (grantRolesToServiceAccount projectID serviceAccountEmail roles) w
    = (r, w', trace) ∧
    EvSetIamPolicy
      {| sip_Resource := "projects/" +:+ projectID;
         sip_Policy :=
           Iam.Grant policy ("serviceAccount:" +:+ serviceAccountEmail)
                     roles |} ∈ trace.
Proof.
  intros H1 H2.
  unfold Eff.run, grantRolesToServiceAccount, Gcputils.slog,
    Eff.bind, Eff.call, Eff.emit, Eff.ret.
  rewrite H1, H2.
  destruct (SetIamPolicy _ w2) as [[p|err] w3];
    destruct (IamPolicyClient_Close w3) as [c w4];
    eexists _, _, _; (split; [reflexivity|]);
    apply list_elem_of_In; simpl; tauto.
Qed.

End GcputilsFacts.

(** * Properties of the authenticator *)

Module AuthnFacts.
Import Authn.

Lemma asciiSpace_ascii c :
  asciiSpace c = true → Nat.ltb (nat_of_ascii c) 128 = true.
Proof. destruct c as [[] [] [] [] [] [] [] []]; vm_compute; congruence. Qed.

Lemma asciiSpaces_blank unicode_TrimSpace s :
  asciiSpaces s = true → blank unicode_TrimSpace s.
Proof.
  unfold blank, strings_TrimSpace. intros H.
  assert (allASCII s = true ∧ trimLeftASCII s = "") as [-> ->]; [|done].
  induction s as [|c s IH]; simpl in *; [done|].
  apply andb_prop in H as [Hc Hs]. destruct (IH Hs) as [Ha Ht].
  rewrite Hc, Ha, (asciiSpace_ascii _ Hc). done.
Qed.

Lemma empty_blank unicode_TrimSpace : blank unicode_TrimSpace "".
Proof. reflexivity. Qed.

(** An authenticator the constructor returns holds the audience of the
    configuration and the issuer derived from its project id. *)
Lemma NewGcpIdentityPlatformValidator_Some unicode_TrimSpace conf methods v :
  (NewGcpIdentityPlatformValidator unicode_TrimSpace conf methods).1
  = Some v →
  v = {| expectedIssuer :=
           "https://securetoken.google.com/" +:+ GcpProjectId conf;
         expectedAudience := ExpectedAudience conf;
         publicMethods := methods |} ∧
  ¬ blank unicode_TrimSpace (GcpProjectId conf) ∧
  ¬ blank unicode_TrimSpace (ExpectedAudience conf).
Proof.
  unfold blank, NewGcpIdentityPlatformValidator.
  destruct (decide (strings_TrimSpace unicode_TrimSpace (GcpProjectId conf)
                    = "")) as [Hp|Hp]; [done|].
  destruct (decide (strings_TrimSpace unicode_TrimSpace
                      (ExpectedAudience conf) = "")) as [Ha|Ha]; [done|].
  simpl. by intros [= <-].
Qed.

(** C5.  The constructor returns no authenticator and
    [ErrProjectIdMissing] when the project id is empty, made of ASCII white
    space, or otherwise trimmed to nothing by [strings.TrimSpace]; no
    authenticator and one of the two errors when the audience is such a
    string, [ErrExpectedAudMissing] when the project id is not; and an
    authenticator it returns comes without error, from a configuration with
    neither field blank, and has the issuer
    [https://securetoken.google.com/] followed by the project id. *)
Theorem NewGcpIdentityPlatformValidator_validates
    (unicode_TrimSpace : string → string)
    (conf : GcpIdentifyPlatformAuthenticatorConfig)
    (publicMethods : gmap string bool) :
  let r := NewGcpIdentityPlatformValidator unicode_TrimSpace conf
             publicMethods in
  (GcpProjectId conf = "" ∨ asciiSpaces (GcpProjectId conf) = true
   ∨ blank unicode_TrimSpace (GcpProjectId conf) →
   r = (None, Some ErrProjectIdMissing)) ∧
  (ExpectedAudience conf = "" ∨ asciiSpaces (ExpectedAudience conf) = true
   ∨ blank unicode_TrimSpace (ExpectedAudience conf) →
   r = (None, Some ErrProjectIdMissing)
   ∨ r = (None, Some ErrExpectedAudMissing)) ∧
  (¬ blank unicode_TrimSpace (GcpProjectId conf) →
   blank unicode_TrimSpace (ExpectedAudience conf) →
   r = (None, Some ErrExpectedAudMissing)) ∧
  (∀ v, r.1 = Some v →
     r.2 = None ∧
     expectedIssuer v
     = "https://securetoken.google.com/" +:+ GcpProjectId conf ∧
     expectedAudience v = ExpectedAudience conf ∧
     Authn.publicMethods v = publicMethods ∧
     ¬ blank unicode_TrimSpace (GcpProjectId conf) ∧
     ¬ blank unicode_TrimSpace (ExpectedAudience conf)).
Proof.
  cbv zeta. unfold blank, NewGcpIdentityPlatformValidator.
  destruct (decide (strings_TrimSpace unicode_TrimSpace (GcpProjectId conf)
                    = "")) as [Hp|Hp];
    [|destruct (decide (strings_TrimSpace unicode_TrimSpace
                          (ExpectedAudience conf) = "")) as [Ha|Ha]];
    simpl; (split; [|split; [|split]]).
  - done.
  - by left.
  - done.
  - intros v [=].
  - intros [E|[E|E]]; exfalso; apply Hp;
      [by rewrite E | by apply asciiSpaces_blank | done].
  - by right.
  - done.
  - intros v [=].
  - intros [E|[E|E]]; exfalso; apply Hp;
      [by rewrite E | by apply asciiSpaces_blank | done].
  - intros [E|[E|E]]; exfalso; apply Ha;
      [by rewrite E | by apply asciiSpaces_blank | done].
  - done.
  - intros v [= <-]. by simpl.
Qed.

Lemma NewGcpIdentityPlatformValidator_validates_witness :
  NewGcpIdentityPlatformValidator Doubles.noUnicodeTrim
    (mkConfig "my-audience" "   ") ∅
  = (None, Some ErrProjectIdMissing).
Proof.
  apply (NewGcpIdentityPlatformValidator_validates Doubles.noUnicodeTrim
           (mkConfig "my-audience" "   ") ∅).
  right. left. reflexivity.
Defined.

(** Unfolds a computation down to the answers of the libraries. *)
Ltac unfold_run :=
  unfold Eff.run, Authenticate, authenticateToken, Authn.slog,
    Eff.bind, Eff.call, Eff.emit, Eff.ret.

Section Authenticate.
Context {ClaimValue W : Type} `{!Library ClaimValue W}.
Implicit Types (v : GcpIdentifyPlatformAuthenticator)
  (ctx : Context ClaimValue) (w : W).

(** A call that is not public goes to the token path, after the one
    call that resolves the method. *)
Lemma Authenticate_nonPublic v ctx w :
  nonPublic v ctx →
  Eff.run (Authenticate v ctx) w = authenticateToken v ctx w [EvMethod].
Proof.
  unfold nonPublic, Eff.run, Authenticate, Eff.bind, Eff.call.
  destruct (grpc_Method ctx) as [method ok]. simpl.
  intros [-> | Hpub]; [done|]. destruct ok; [|done].
  destruct (decide (is_Some (publicMethods v !! method))) as [Hs|]; [|done].
  rewrite Hpub in Hs. by destruct Hs.
Qed.

Lemma WithValue_ne ctx key val : WithValue ctx key val ≠ ctx.
Proof.
  revert key val. induction ctx as [|parent IH k v]; intros key val; [done|].
  intros [= Hp _ _]. by apply IH in Hp.
Qed.

Lemma Value_WithValue ctx key val :
  Value (WithValue ctx key val) key = Some val.
Proof. simpl. by destruct (decide (key = key)). Qed.
End Authenticate.

(** C3.  For an authenticator built by the constructor from [conf], on a
    call that is not public and whose token is extracted and handed to a
    validator: when the validation against the expected audience of [conf]
    fails, or succeeds with an issuer other than
    [https://securetoken.google.com/] followed by the project id,
    [Authenticate] returns no context and an [Unauthenticated] error; when
    it succeeds with that issuer, [Authenticate] returns, without error,
    the input context extended with the claims of the payload under the
    key [jwt_claims]. *)
Theorem Authenticate_enforces_issuer_audience
    {ClaimValue W : Type} `{!Library ClaimValue W}
    (unicode_TrimSpace : string → string)
    (conf : GcpIdentifyPlatformAuthenticatorConfig)
    (methods : gmap string bool)
    (v : GcpIdentifyPlatformAuthenticator) (ctx : Context ClaimValue)
    (w w1 : W) (token : string) (validator : Validator) :
  NewGcpIdentityPlatformValidator unicode_TrimSpace conf methods
  = (Some v, None) →
  nonPublic v ctx →
  auth_AuthFromMD ctx "bearer" = inl token →
  idtoken_NewValidator ctx w = (inl validator, w1) →
  (∀ err w2,
     Validator_Validate validator ctx token (ExpectedAudience conf) w1
     = (inr err, w2) →
     ∃ msg trace,
       Eff.run (Authenticate v ctx) w
       = ((None, Some (status_Error Unauthenticated msg)), w2, trace)) ∧
  (∀ payload w2,
     Validator_Validate validator ctx token (ExpectedAudience conf) w1
     = (inl payload, w2) →
     Issuer payload
     ≠ "https://securetoken.google.com/" +:+ GcpProjectId conf →
     ∃ msg trace,
       Eff.run (Authenticate v ctx) w
       = ((None, Some (status_Error Unauthenticated msg)), w2, trace)) ∧
  (∀ payload w2,
     Validator_Validate validator ctx token (ExpectedAudience conf) w1
     = (inl payload, w2) →
     Issuer payload
     = "https://securetoken.google.com/" +:+ GcpProjectId conf →
     ∃ ctx' trace,
       Eff.run (Authenticate v ctx) w = ((Some ctx', None), w2, trace) ∧
       ctx' = WithValue ctx "jwt_claims" (Claims payload) ∧
       Value ctx' "jwt_claims" = Some (Claims payload)).
Proof.
  intros Hnew Hnp Htok Hval.
  destruct (NewGcpIdentityPlatformValidator_Some unicode_TrimSpace
              conf methods v) as (Hv & _); [by rewrite Hnew|].
  rewrite (Authenticate_nonPublic _ _ _ Hnp).
  subst v. unfold_run. rewrite Htok, Hval. simpl.
  split; [|split].
  - intros err w2 ->. by eexists _, _.
  - intros payload w2 -> Hne.
    destruct (decide (Issuer payload ≠ _)) as [_|Heq]; [by eexists _, _|].
    by destruct Heq.
  - intros payload w2 -> Heq.
    destruct (decide (Issuer payload ≠ _)) as [Hne|_]; [done|].
    eexists _, _. split; [reflexivity|]. split; [reflexivity|].
    apply Value_WithValue.
Qed.

Lemma Authenticate_enforces_issuer_audience_witness :
  ∃ ctx' trace,
    Eff.run (Authenticate Doubles.authenticator1 Doubles.ordersCall)
            Doubles.platform1
    = ((Some ctx', None), Doubles.platform1, trace) ∧
    ctx' = WithValue Doubles.ordersCall "jwt_claims"
             (Claims Doubles.annPayload) ∧
    Value ctx' "jwt_claims" = Some (Claims Doubles.annPayload).
Proof.
  edestruct (Authenticate_enforces_issuer_audience (W := Doubles.Platform)
               Doubles.noUnicodeTrim Doubles.conf1 Doubles.methods1
               Doubles.authenticator1 Doubles.ordersCall Doubles.platform1)
    as (_ & _ & Hok).
  - reflexivity.
  - right. vm_compute. reflexivity.
  - vm_compute. reflexivity.
  - reflexivity.
  - apply (Hok Doubles.annPayload Doubles.platform1); vm_compute; reflexivity.
Defined.

(** C4.  When the method name is resolved and is a key of
    [publicMethods], [Authenticate] returns the input context and no error,
    leaves the world as it was, and makes no call that extracts the token,
    builds a validator or validates: it resolves the method and writes one
    debug record. *)
Theorem Authenticate_public_bypass
    {ClaimValue W : Type} `{!Library ClaimValue W}
    (v : GcpIdentifyPlatformAuthenticator) (ctx : Context ClaimValue)
    (w : W) (method : string) :
  grpc_Method ctx = (method, true) →
  is_Some (publicMethods v !! method) →
  ∃ trace,
    Eff.run (Authenticate v ctx) w = ((Some ctx, None), w, trace) ∧
    trace = [EvMethod;
             EvLog LevelDebug
               ("Skipping authentication for public method: " +:+ method) []]
    ∧ List.filter touchesToken trace = [].
Proof.
  intros Hm Hpub. unfold_run. rewrite Hm.
  destruct (decide (is_Some (publicMethods v !! method))); [|done].
  by eexists.
Qed.

Lemma Authenticate_public_bypass_witness :
  ∃ trace,
    Eff.run (Authenticate Doubles.authenticator1 Doubles.healthCall)
            Doubles.platform1
    = ((Some Doubles.healthCall, None), Doubles.platform1, trace) ∧
    List.filter touchesToken trace = [].
Proof.
  edestruct (Authenticate_public_bypass (W := Doubles.Platform)
               Doubles.authenticator1 Doubles.healthCall Doubles.platform1)
    as (trace & Hrun & _ & Hnone).
  - reflexivity.
  - eexists. vm_compute. reflexivity.
  - by exists trace.
Defined.

(** C10.  When the method name is not resolved, [Authenticate] takes the
    token path whatever [publicMethods] holds: after resolving the method
    its next call extracts the bearer token, and when that extraction
    fails it returns no context and the [Unauthenticated] error
    [Authorization token not provided]. *)
Theorem Authenticate_unresolved_method
    {ClaimValue W : Type} `{!Library ClaimValue W}
    (v : GcpIdentifyPlatformAuthenticator) (ctx : Context ClaimValue)
    (w : W) (method : string) :
  grpc_Method ctx = (method, false) →
  Eff.run (Authenticate v ctx) w = authenticateToken v ctx w [EvMethod] ∧
  (∃ r w' rest,
     Eff.run (Authenticate v ctx) w
     = (r, w', EvMethod :: EvAuthFromMD "bearer" :: rest) ∧
     r ≠ (Some ctx, None)) ∧
  (∀ err,
     auth_AuthFromMD ctx "bearer" = inr err →
     ∃ trace,
       Eff.run (Authenticate v ctx) w
       = ((None, Some (status_Error Unauthenticated
                         "Authorization token not provided")),
          w, trace) ∧
       List.filter touchesToken trace = [EvAuthFromMD "bearer"]).
Proof.
  intros Hm.
  assert (nonPublic v ctx) as Hnp by (left; by rewrite Hm).
  split; [by apply Authenticate_nonPublic|]. split.
  - rewrite (Authenticate_nonPublic _ _ _ Hnp). unfold_run.
    destruct (auth_AuthFromMD ctx "bearer") as [token|err];
      [|by eexists _, _, _].
    destruct (idtoken_NewValidator ctx w) as [[validator|err] w1];
      [|by eexists _, _, _].
    destruct (Validator_Validate validator ctx token (expectedAudience v) w1)
      as [[payload|err] w2]; [|by eexists _, _, _].
    destruct (decide (Issuer payload ≠ expectedIssuer v));
      eexists _, _, _; (split; [reflexivity|]); [done|].
    intros [= Heq]. by apply WithValue_ne in Heq.
  - intros err Herr. rewrite (Authenticate_nonPublic _ _ _ Hnp).
    unfold_run. rewrite Herr. by eexists.
Qed.

Lemma Authenticate_unresolved_method_witness :
  ∃ trace,
    Eff.run (Authenticate Doubles.authenticator1 Doubles.bareCall)
            Doubles.platform1
    = ((None, Some (status_Error Unauthenticated
                      "Authorization token not provided")),
       Doubles.platform1, trace) ∧
    List.filter touchesToken trace = [EvAuthFromMD "bearer"].
Proof.
  edestruct (Authenticate_unresolved_method (W := Doubles.Platform)
               Doubles.authenticator1 Doubles.bareCall Doubles.platform1)
    as (_ & _ & Hnone).
  - reflexivity.
  - eapply Hnone. vm_compute. reflexivity.
Defined.

End AuthnFacts.

(** * Properties of [Unmarshal] *)

Module EnvironFacts.
Import Environ.

Section Unmarshal.
Context `{!Strconv}.
Implicit Types (env : gmap string string) (config : list Field).

(** The loop, started at the index that follows the fields [seen], with
    the fields [rest] to go. *)
Lemma Unmarshal_loop env (seen rest : list Field) (errs : list error) :
  fold_left (Unmarshal_iter env) (seq (length seen) (length rest))
            (seen ++ rest, errs)
  = (seen ++ (fieldAfter env <$> rest),
     errs ++ concat (fieldErrors env <$> rest)).
Proof.
  revert seen errs. induction rest as [|field rest IH]; intros seen errs.
  - simpl. by rewrite !app_nil_r.
  - simpl. rewrite list_lookup_middle by done.
    unfold fieldAfter, fieldErrors in *.
    destruct (Unmarshal_field env field) as [field' es] eqn:E. simpl.
    rewrite insert_app_r_alt, Nat.sub_diag by done. simpl.
    specialize (IH (seen ++ [field']) (errs ++ es)).
    rewrite length_app in IH. simpl in IH.
    rewrite Nat.add_1_r, <- !app_assoc in IH. simpl in IH.
    by rewrite IH.
Qed.

Lemma Unmarshal_eq env config :
  Unmarshal env config
  = (fieldAfter env <$> config,
     match concat (fieldErrors env <$> config) with
     | [] => None
     | errs => Some (errors_Join errs)
     end).
Proof.
  unfold Unmarshal.
  pose proof (Unmarshal_loop env [] config []) as Hloop. simpl in Hloop.
  rewrite Hloop. by destruct (concat (fieldErrors env <$> config)).
Qed.

(** An iteration appends no error or one; a field with an error is left
    as it was, and the error wraps the sentinel of a malformed tag, of a
    missing variable, of an unsupported type, or the error of the
    parser. *)
Lemma Unmarshal_field_error env field :
  fieldErrors env field = []
  ∨ ∃ text e,
      fieldErrors env field = [fmt_Errorf text e] ∧
      fieldAfter env field = field ∧
      (e = ErrMalformedTag ∨ e = ErrMissingEnvVariable
       ∨ e = ErrNotSupportedTypeFound
       ∨ (∃ val, ParseBool val = inr e)
       ∨ (∃ val bits, ParseFloat val bits = inr e)
       ∨ (∃ val bits, ParseInt val 10 bits = inr e)).
Proof.
  unfold fieldErrors, fieldAfter, Unmarshal_field.
  destruct (f_CanSet field); simpl; [|by left].
  destruct (f_Tag field) as [tagEncoded|]; [|by left].
  destruct (parseTagValue tagEncoded) as [[tag optional] [err|]].
  { right. eexists _, _. split; [done|]. split; [done|]. by left. }
  destruct (os_LookupEnv env tag) as [val [|]]; simpl.
  - destruct (f_Kind field); simpl;
      try (right; eexists _, _; split; [done|]; split; [done|];
           right; right; by left).
    + destruct (ParseBool val) as [b|e] eqn:E; [by left|].
      right. eexists _, _. split; [done|]. split; [done|].
      do 3 right. left. eauto.
    + destruct (ParseInt val 10 _) as [z|e] eqn:E; [by left|].
      right. eexists _, _. split; [done|]. split; [done|].
      do 5 right. eauto.
    + destruct (ParseInt val 10 _) as [z|e] eqn:E; [by left|].
      right. eexists _, _. split; [done|]. split; [done|].
      do 5 right. eauto.
    + destruct (ParseInt val 10 _) as [z|e] eqn:E; [by left|].
      right. eexists _, _. split; [done|]. split; [done|].
      do 5 right. eauto.
    + destruct (ParseFloat val _) as [x|e] eqn:E; [by left|].
      right. eexists _, _. split; [done|]. split; [done|].
      do 4 right. left. eauto.
    + destruct (ParseFloat val _) as [x|e] eqn:E; [by left|].
      right. eexists _, _. split; [done|]. split; [done|].
      do 4 right. left. eauto.
    + by left.
  - destruct optional; simpl; [by left|].
    right. eexists _, _. split; [done|]. split; [done|]. right. by left.
Qed.
End Unmarshal.

(** C9.  [Unmarshal] runs the iteration on every field, whether or not an
    earlier field failed: each field of the struct ends as its own
    iteration leaves it, and the returned error is [nil] when no iteration
    reported an error and otherwise the join of the errors of all
    iterations, in the order of the fields.  In particular the fields after
    a failing field are processed as they are on their own, and their
    errors are in the join. *)
Theorem Unmarshal_collects_all_errors {strconv : Strconv}
    (env : gmap string string) (config : list Field) :
  (Unmarshal env config).1 = fieldAfter env <$> config ∧
  (Unmarshal env config).2
  = match concat (fieldErrors env <$> config) with
    | [] => None
    | errs => Some (errors_Join errs)
    end ∧
  ((Unmarshal env config).2 = None
   ↔ ∀ field, field ∈ config → fieldErrors env field = []) ∧
  (∀ before field after,
     config = before ++ field :: after →
     (Unmarshal env config).1
     = (Unmarshal env before).1
       ++ fieldAfter env field :: (Unmarshal env after).1 ∧
     ∀ e, e ∈ concat (fieldErrors env <$> field :: after) →
          ∃ errs, (Unmarshal env config).2 = Some (errors_Join errs) ∧
                  e ∈ errs).
Proof.
  rewrite Unmarshal_eq. cbn [fst snd]. split; [done|]. split; [done|]. split.
  - split.
    + intros Hnil field Hin.
      destruct (concat (fieldErrors env <$> config)) as [|e errs] eqn:E;
        [|done].
      destruct (fieldErrors env field) as [|e es] eqn:Ef; [done|].
      assert (e ∈ concat (fieldErrors env <$> config)) as He;
        [|by rewrite E in He; inversion He].
      apply list_elem_of_In, in_concat. exists (fieldErrors env field).
      split; [|rewrite Ef; by left].
      by apply list_elem_of_In, list_elem_of_fmap_2.
    + intros Hall.
      assert (concat (fieldErrors env <$> config) = []) as ->; [|done].
      induction config as [|f config IH]; simpl; [done|].
      rewrite (Hall f) by left. simpl. apply IH. intros g Hg.
      apply Hall. by right.
  - intros before field after ->. rewrite !Unmarshal_eq. cbn [fst snd]. split.
    + by rewrite fmap_app, fmap_cons.
    + intros e He. rewrite fmap_app, concat_app.
      destruct (concat (fieldErrors env <$> before)
                ++ concat (fieldErrors env <$> field :: after))
        as [|e0 errs] eqn:E.
      * apply app_eq_nil in E as [_ E]. rewrite E in He. inversion He.
      * eexists. split; [reflexivity|]. rewrite <- E.
        apply elem_of_app. by right.
Qed.

Lemma Unmarshal_collects_all_errors_witness :
  let config := [mkField true (Some "DEBUG") Bool "bool" VOther;
                 mkField true (Some "NAME") String_ "string" VOther] in
  let env : gmap string string := {["NAME" := "svc"; "DEBUG" := "maybe"]} in
  (Unmarshal env config).1 = fieldAfter env <$> config.
Proof.
  intros config env.
  apply (Unmarshal_collects_all_errors (strconv := Doubles.decimalStrconv)
           env config).
Defined.

(** A struct whose first three fields fail in three ways, followed by two
    fields that are set: the three errors are joined and the two values are
    written. *)
Example Unmarshal_after_failures :
  let field kind tag := mkField true (Some tag) kind "T" VOther in
  Unmarshal
    {["PORT" := "8080"; "NAME" := "svc"; "DEBUG" := "maybe"]}
    [field Bool "DEBUG"; field String_ "HOST"; field Int "A,B";
     field Int "PORT"; field String_ "NAME"]
  = ([field Bool "DEBUG"; field String_ "HOST"; field Int "A,B";
      mkField true (Some "PORT") Int "T" (VInt 8080);
      mkField true (Some "NAME") String_ "T" (VString "svc")],
     Some (errors_Join
             [fmt_Errorf "invalid value 'maybe' for type 'T'; "
                (strconv_NumError "ParseBool" "maybe" Doubles.ErrSyntax);
              fmt_Errorf "required 'HOST' missing; " ErrMissingEnvVariable;
              fmt_Errorf "env struct tag 'A,B' malformed; "
                ErrMalformedTag])).
Proof. vm_compute. reflexivity. Qed.

End EnvironFacts.

(** * Further properties of the role-grant merge *)

Module IamMore.
Import Iam IamFacts.

(** The roles after one iteration: the roles before it, followed by the
    role of the iteration when no binding had it. *)
Lemma roles_grantRole member bindings roleName :
  Role <$> grantRole member bindings roleName
  = if decide (roleName ∈ Role <$> bindings) then Role <$> bindings
    else (Role <$> bindings) ++ [roleName].
Proof.
  destruct (grantRole_cases member bindings roleName)
    as [[Hall ->] | (pre & b & post & -> & Hpre & Hb & ->)].
  - destruct (decide (roleName ∈ Role <$> bindings)) as [Hin|_].
    + apply list_elem_of_fmap in Hin as (b & -> & Hb).
      rewrite Forall_forall in Hall. by destruct (Hall b Hb).
    + by rewrite fmap_app.
  - rewrite !fmap_app, !fmap_cons, Role_addMember.
    destruct (decide (roleName ∈ (Role <$> pre) ++ Role b :: (Role <$> post)))
      as [_|Hnin]; [done|].
    destruct Hnin. apply elem_of_app. right. rewrite Hb. left.
Qed.

Lemma roles_grantRoles member roles bindings :
  ∃ newRoles,
    Role <$> grantRoles member roles bindings
    = (Role <$> bindings) ++ newRoles ∧
    NoDup newRoles ∧
    (∀ r, r ∈ newRoles ↔ r ∈ roles ∧ r ∉ Role <$> bindings) ∧
    sublist newRoles roles.
Proof.
  unfold grantRoles. revert bindings.
  induction roles as [|r roles IH]; intros bindings; simpl.
  - exists []. rewrite app_nil_r.
    split; [done|]. split; [constructor|]. split; [|constructor].
    intros r. split; [intros Hr | intros [Hr _]]; inversion Hr.
  - destruct (IH (grantRole member bindings r))
      as (new & Heq & Hnd & Hmem & Hsub).
    rewrite roles_grantRole in Heq, Hmem.
    destruct (decide (r ∈ Role <$> bindings)) as [Hin|Hnin].
    + exists new. split; [done|]. split; [done|].
      split; [|by apply sublist_cons].
      intros r'. rewrite Hmem. split.
      * intros [Hr Hr']. split; [by right | done].
      * intros [Hr Hr']. split; [|done].
        apply elem_of_cons in Hr as [->|Hr]; done.
    + exists (r :: new). rewrite <- app_assoc in Heq.
      split; [done|]. split; [|split; [|by apply sublist_skip]].
      * constructor; [|done]. intros Hr. apply Hmem in Hr as [_ Hr].
        apply Hr, elem_of_app. right. left.
      * intros r'. rewrite elem_of_cons, Hmem. split.
        -- intros [->|[Hr Hr']]; [split; [left | done]|].
           split; [by right|]. intros Hr''. apply Hr', elem_of_app. by left.
        -- intros [Hr Hr'].
           destruct (decide (r' = r)) as [->|Hne]; [by left|]. right.
           apply elem_of_cons in Hr as [->|Hr]; [done|]. split; [done|].
           intros Hr''. apply elem_of_app in Hr'' as [Hr''|Hr'']; [done|].
           by apply list_elem_of_singleton in Hr''.
Qed.

(** X1.  Granting again any roles among those already granted, to the same
    member, changes nothing. *)
Theorem Grant_subset_noop (policy : Policy) (member : string)
    (roles roles' : list string) :
  roles' ⊆ roles →
  Grant (Grant policy member roles) member roles' = Grant policy member roles.
Proof.
  intros Hsub. unfold Grant. simpl. f_equal.
  apply grantRoles_granted. apply Forall_forall. intros r Hr.
  pose proof (granted_grantRoles member roles (Bindings policy)) as Hg.
  rewrite Forall_forall in Hg. apply Hg, Hsub, Hr.
Qed.

Lemma Grant_subset_noop_witness :
  let granted := Grant (mkPolicy 1 [] "") "serviceAccount:a@x.iam"
                       ["roles/viewer"; "roles/editor"] in
  Grant granted "serviceAccount:a@x.iam" ["roles/editor"; "roles/editor"]
  = granted.
Proof.
  apply Grant_subset_noop. intros r Hr.
  apply list_elem_of_In in Hr. apply list_elem_of_In. simpl in *. tauto.
Defined.

(** X2.  A binding whose role is not granted, or that holds the member
    already, is after [Grant] the same binding at the same index. *)
Theorem Grant_other_bindings_untouched (policy : Policy) (member : string)
    (roles : list string) (i : nat) (b : Binding) :
  Bindings policy !! i = Some b →
  Role b ∉ roles ∨ member ∈ Members b →
  Bindings (Grant policy member roles) !! i = Some b.
Proof.
  intros Hi Hb. simpl.
  destruct (extends_grantRoles member roles (Bindings policy))
    as (kept & new & -> & Hkept & _).
  destruct (Forall2_lookup_l _ _ _ _ _ Hkept Hi) as (b' & Hb' & Hr & Hm).
  rewrite lookup_app_l by (by eapply lookup_lt_Some).
  rewrite Hb'. f_equal. destruct b as [r ms], b' as [r' ms']. simpl in *.
  subst r'. f_equal.
  destruct Hm as [Hm | (Hm & Hnin & Hin)]; [done|].
  destruct Hb as [Hb|Hb]; [by destruct Hb | by destruct Hnin].
Qed.

Lemma Grant_other_bindings_untouched_witness :
  Bindings (Grant (mkPolicy 1 [mkBinding "roles/owner" ["user:ann"]] "e1")
                  "serviceAccount:a@x.iam" ["roles/viewer"]) !! 0
  = Some (mkBinding "roles/owner" ["user:ann"]).
Proof.
  apply Grant_other_bindings_untouched; [reflexivity|].
  left. intros Hin. apply list_elem_of_In in Hin. simpl in Hin.
  destruct Hin as [Hin|[]]. discriminate.
Defined.

(** X3.  The roles of the bindings after [Grant] are the roles before it, in
    their order, followed by the roles of the list that had no binding,
    each once, in the order of the list. *)
Theorem Grant_roles (policy : Policy) (member : string)
    (roles : list string) :
  ∃ newRoles,
    Role <$> Bindings (Grant policy member roles)
    = (Role <$> Bindings policy) ++ newRoles ∧
    NoDup newRoles ∧
    (∀ r, r ∈ newRoles ↔ r ∈ roles ∧ r ∉ Role <$> Bindings policy) ∧
    sublist newRoles roles ∧
    length (Bindings (Grant policy member roles))
    = length (Bindings policy) + length newRoles.
Proof.
  destruct (roles_grantRoles member roles (Bindings policy))
    as (new & Heq & Hnd & Hmem & Hsub).
  exists new. simpl. split; [done|]. split; [done|]. split; [done|].
  split; [done|].
  rewrite <- (length_fmap Role (grantRoles _ _ _)), Heq, length_app.
  by rewrite length_fmap.
Qed.

End IamMore.

(** * Further properties of [gcputils] *)

Module GcputilsMore.
Import Gcputils GcputilsTrace.

Ltac unfold_all :=
  unfold Eff.run, NewM2MServiceAccount, NewM2MServiceAccount_body,
    grantRolesToServiceAccount, Gcputils.slog,
    Eff.bind, Eff.call, Eff.emit, Eff.ret.

(** Membership in a trace that is written out. *)
Ltac in_trace H :=
  apply list_elem_of_In in H; simpl in H;
  repeat (destruct H as [H|H]; [try discriminate H|]); try contradiction.

(** X4.  [NewM2MServiceAccount] returns a record and no error, or no record
    and an error, and the error wraps the failure of the client creation,
    of the account creation or of the key creation. *)
Theorem NewM2MServiceAccount_result
    {W : Type} `{!IamClient W} (projectID clientID displayName : string)
    (w : W) :
  let '(account, err, _, _) :=
    Eff.run (NewM2MServiceAccount projectID clientID displayName) w in
  (is_Some account ∧ err = None)
  ∨ (account = None ∧
     ∃ e, err = Some (fmt_Errorf "iamadmin.NewIAMClient: " e)
          ∨ err = Some (fmt_Errorf "CreateServiceAccount: " e)
          ∨ err = Some (fmt_Errorf "CreateServiceAccountKey: " e)).
Proof.
  unfold_all.
  destruct (NewIamClient w) as [[e|] w1]; [right; eauto|].
  destruct (CreateServiceAccount _ w1) as [[createdSA|e] w2];
    [|destruct (IamClient_Close w2); right; eauto 6].
  destruct (CreateServiceAccountKey _ w2) as [[key|e] w3].
  - destruct (IamClient_Close w3). left. eauto.
  - destruct (DeleteServiceAccount _ w3) as [[delErr|] w4];
      destruct (IamClient_Close w4); right; eauto 6.
Qed.

(** X5.  A [DeleteServiceAccount] call is made only after the account was
    created and the key creation failed; it names that account, and the run
    returns no record. *)
Theorem NewM2MServiceAccount_delete_only_after_key_failure
    {W : Type} `{!IamClient W} (projectID clientID displayName : string)
    (w : W) :
  let '(account, _, _, trace) :=
    Eff.run (NewM2MServiceAccount projectID clientID displayName) w in
  ∀ req, EvDeleteServiceAccount req ∈ trace →
    account = None ∧
    ∃ w1 w2 w3 createdSA keyErr,
      NewIamClient w = (None, w1) ∧
      CreateServiceAccount (saRequest projectID clientID displayName) w1
      = (inl createdSA, w2) ∧
      CreateServiceAccountKey (keyRequest createdSA) w2 = (inr keyErr, w3) ∧
      req = {| dsa_Name := sa_Name createdSA |}.
Proof.
  unfold_all.
  destruct (NewIamClient w) as [[e|] w1] eqn:H1; [intros req H; in_trace H|].
  destruct (CreateServiceAccount _ w1) as [[createdSA|e] w2] eqn:H2;
    [|destruct (IamClient_Close w2); intros req H; in_trace H].
  destruct (CreateServiceAccountKey _ w2) as [[key|e] w3] eqn:H3.
  - destruct (IamClient_Close w3). intros req H; in_trace H.
  - destruct (DeleteServiceAccount _ w3) as [[delErr|] w4];
      destruct (IamClient_Close w4); intros req H; in_trace H;
      injection H as <-; (split; [done|]); by eexists _, _, _, _, _.
Qed.

Lemma NewM2MServiceAccount_delete_only_after_key_failure_witness :
  ∃ w1 w2 w3 createdSA keyErr,
    NewIamClient Doubles.brokenCloud = (None, w1) ∧
    CreateServiceAccount (saRequest "proj" "billing" "Billing") w1
    = (inl createdSA, w2) ∧
    CreateServiceAccountKey (keyRequest createdSA) w2 = (inr keyErr, w3) ∧
    {| dsa_Name := "projects/proj/serviceAccounts/billing@x.iam" |}
    = {| dsa_Name := sa_Name createdSA |}.
Proof.
  refine (proj2 (NewM2MServiceAccount_delete_only_after_key_failure
                   (W := Doubles.Cloud) "proj" "billing" "Billing"
                   Doubles.brokenCloud _ _)).
  apply list_elem_of_In. simpl. tauto.
Defined.

(** X6.  When the client is created, [Close] is called once, as the last
    event of the run; when the creation of the client fails, the run makes
    no other call and returns that failure, wrapped. *)
Theorem NewM2MServiceAccount_closes_client
    {W : Type} `{!IamClient W} (projectID clientID displayName : string)
    (w : W) :
  let '(result, _, trace) :=
    Eff.run (NewM2MServiceAccount projectID clientID displayName) w in
  match (NewIamClient w).1 with
  | None =>
      ∃ before, trace = before ++ [EvIamClientClose] ∧
                List.filter isClose before = []
  | Some e =>
      trace = [EvNewIamClient] ∧
      result = (None, Some (fmt_Errorf "iamadmin.NewIAMClient: " e))
  end.
Proof.
  unfold_all.
  destruct (NewIamClient w) as [[e|] w1]; simpl; [done|].
  destruct (CreateServiceAccount _ w1) as [[createdSA|e] w2];
    [|destruct (IamClient_Close w2); by eexists [_; _; _]].
  destruct (CreateServiceAccountKey _ w2) as [[key|e] w3].
  - destruct (IamClient_Close w3). by eexists [_; _; _; _; _; _; _].
  - destruct (DeleteServiceAccount _ w3) as [[delErr|] w4];
      destruct (IamClient_Close w4).
    + by eexists [_; _; _; _; _; _; _; _].
    + by eexists [_; _; _; _; _; _; _].
Qed.

(** X7.  When the account creation fails there is nothing to compensate:
    the run returns that failure, wrapped, and requests neither a key nor a
    deletion. *)
Theorem NewM2MServiceAccount_creation_failure
    {W : Type} `{!IamClient W} (projectID clientID displayName : string)
    (w w1 w2 : W) (e : error) :
  NewIamClient w = (None, w1) →
  CreateServiceAccount (saRequest projectID clientID displayName) w1
  = (inr e, w2) →
  ∃ w' trace,
    Eff.run (NewM2MServiceAccount projectID clientID displayName) w
    = ((None, Some (fmt_Errorf "CreateServiceAccount: " e)), w', trace) ∧
    List.filter isCreateKey trace = [] ∧
    List.filter isDelete trace = [].
Proof.
  intros H1 H2. unfold_all. rewrite H1, H2.
  destruct (IamClient_Close w2). by eexists _, _.
Qed.

Lemma NewM2MServiceAccount_creation_failure_witness :
  ∃ w' trace,
    Eff.run (NewM2MServiceAccount "proj" "billing" "Billing")
            MoreDoubles.takenCloud
    = ((None, Some (fmt_Errorf "CreateServiceAccount: "
                      (errors_New "already exists"))), w', trace) ∧
    List.filter isCreateKey trace = [] ∧
    List.filter isDelete trace = [].
Proof.
  eapply (NewM2MServiceAccount_creation_failure (W := Doubles.Cloud));
    reflexivity.
Defined.

(** X8.  A run in which the three remote calls succeed makes exactly these
    calls, in this order, and then closes the client; the record it returns
    takes its email and display name from the created account, its key id
    from the created key, and its service account id from [clientID]. *)
Theorem NewM2MServiceAccount_success_calls
    {W : Type} `{!IamClient W} (projectID clientID displayName : string)
    (w w1 w2 w3 : W) createdSA generatedKey :
  NewIamClient w = (None, w1) →
  CreateServiceAccount (saRequest projectID clientID displayName) w1
  = (inl createdSA, w2) →
  CreateServiceAccountKey (keyRequest createdSA) w2
  = (inl generatedKey, w3) →
  ∃ account trace,
    Eff.run (NewM2MServiceAccount projectID clientID displayName) w
    = ((Some account, None), (IamClient_Close w3).2, trace) ∧
    List.filter isCall trace
    = [EvNewIamClient;
       EvCreateServiceAccount (saRequest projectID clientID displayName);
       EvCreateServiceAccountKey (keyRequest createdSA);
       EvIamClientClose] ∧
    Email account = sa_Email createdSA ∧
    DisplayName account = sa_DisplayName createdSA ∧
    KeyID account = key_Name generatedKey ∧
    ServiceAccountID account = clientID.
Proof.
  intros H1 H2 H3. unfold_all. rewrite H1, H2, H3.
  destruct (IamClient_Close w3). by eexists _, _.
Qed.

Lemma NewM2MServiceAccount_success_calls_witness :
  ∃ account trace,
    Eff.run (NewM2MServiceAccount "proj" "billing" "Billing")
            Doubles.healthyCloud
    = ((Some account, None),
       Doubles.mkCloud ["billing"] true true, trace) ∧
    Email account = "billing@x.iam" ∧
    ServiceAccountID account = "billing".
Proof.
  edestruct (NewM2MServiceAccount_success_calls (W := Doubles.Cloud)
               "proj" "billing" "Billing" Doubles.healthyCloud)
    as (account & trace & Hrun & _ & Hemail & _ & _ & Hid);
    [reflexivity..|].
  by exists account, trace.
Defined.

Section Granting.
Context {W : Type} `{!IamPolicyClient W}.

(** The runs of [grantRolesToServiceAccount], by the answers of the
    service. *)
Lemma grantRolesToServiceAccount_cases
    (projectID serviceAccountEmail : string) (roles : list string) (w : W) :
  let run :=
    Eff.run (grantRolesToServiceAccount projectID serviceAccountEmail roles)
            w in
  let set := setRequest projectID serviceAccountEmail roles in
  (∃ e w1, NewIamPolicyClient w = (Some e, w1) ∧
     run = (Some (fmt_Errorf "iampolicy.NewIamPolicyClient: " e), w1,
            [EvNewIamPolicyClient]))
  ∨ (∃ w1 e w2,
       NewIamPolicyClient w = (None, w1) ∧
       GetIamPolicy (getRequest projectID) w1 = (inr e, w2) ∧
       run = (Some (fmt_Errorf "GetIamPolicy: " e),
              (IamPolicyClient_Close w2).2,
              [EvNewIamPolicyClient; EvGetIamPolicy (getRequest projectID);
               EvIamPolicyClientClose]))
  ∨ (∃ w1 policy w2 e w3,
       NewIamPolicyClient w = (None, w1) ∧
       GetIamPolicy (getRequest projectID) w1 = (inl policy, w2) ∧
       SetIamPolicy (set policy) w2 = (inr e, w3) ∧
       run = (Some (fmt_Errorf "SetIamPolicy: " e),
              (IamPolicyClient_Close w3).2,
              [EvNewIamPolicyClient; EvGetIamPolicy (getRequest projectID);
               EvSetIamPolicy (set policy); EvIamPolicyClientClose]))
  ∨ (∃ w1 policy w2 written w3,
       NewIamPolicyClient w = (None, w1) ∧
       GetIamPolicy (getRequest projectID) w1 = (inl policy, w2) ∧
       SetIamPolicy (set policy) w2 = (inl written, w3) ∧
       run = (None, (IamPolicyClient_Close w3).2,
              [EvNewIamPolicyClient; EvGetIamPolicy (getRequest projectID);
               EvSetIamPolicy (set policy);
               EvLog LevelInfo "Granted roles to service account"
                 [AttrString "roles"; AttrStrings roles;
                  AttrString "account"; AttrString serviceAccountEmail;
                  AttrString "project"; AttrString projectID];
               EvIamPolicyClientClose])).
Proof.
  cbv zeta. unfold_all. unfold setRequest, getRequest.
  destruct (NewIamPolicyClient w) as [[e|] w1] eqn:H1;
    [left; by eexists _, _|].
  destruct (GetIamPolicy _ w1) as [[policy|e] w2] eqn:H2.
  - destruct (SetIamPolicy _ w2) as [[written|e] w3] eqn:H3.
    + do 3 right. eexists _, _, _, _, _.
      split; [done|]. split; [exact H2|]. split; [exact H3|].
      by destruct (IamPolicyClient_Close w3).
    + do 2 right. left. eexists _, _, _, _, _.
      split; [done|]. split; [exact H2|]. split; [exact H3|].
      by destruct (IamPolicyClient_Close w3).
  - right. left. eexists _, _, _. split; [done|]. split; [exact H2|].
    by destruct (IamPolicyClient_Close w2).
Qed.
End Granting.

(** X9.  [grantRolesToServiceAccount] writes at most once, and only a
    policy it has read: the request names the resource of the read, and its
    policy is [Grant] of the policy read, with the version and the etag of
    the policy read. *)
Theorem grantRolesToServiceAccount_writes_what_it_read
    {W : Type} `{!IamPolicyClient W}
    (projectID serviceAccountEmail : string) (roles : list string) (w : W) :
  let '(_, _, trace) :=
    Eff.run (grantRolesToServiceAccount projectID serviceAccountEmail roles)
            w in
  ∀ req, EvSetIamPolicy req ∈ trace →
    ∃ w1 policy w2,
      NewIamPolicyClient w = (None, w1) ∧
      GetIamPolicy (getRequest projectID) w1 = (inl policy, w2) ∧
      req = setRequest projectID serviceAccountEmail roles policy ∧
      sip_Resource req = gip_Resource (getRequest projectID) ∧
      Iam.Etag (sip_Policy req) = Iam.Etag policy ∧
      Iam.Version (sip_Policy req) = Iam.Version policy ∧
      List.filter isSetPolicy trace = [EvSetIamPolicy req].
Proof.
  destruct (grantRolesToServiceAccount_cases projectID serviceAccountEmail
              roles w)
    as [(e & w1 & H1 & ->) | [(w1 & e & w2 & H1 & H2 & ->)
       | [(w1 & policy & w2 & e & w3 & H1 & H2 & H3 & ->)
         | (w1 & policy & w2 & p & w3 & H1 & H2 & H3 & ->)]]];
    intros req H; in_trace H; injection H as <-; by eexists _, _, _.
Qed.

Lemma grantRolesToServiceAccount_writes_what_it_read_witness :
  ∃ w1 policy w2,
    NewIamPolicyClient MoreDoubles.policy1 = (None, w1) ∧
    GetIamPolicy (getRequest "proj") w1 = (inl policy, w2) ∧
    Iam.Etag policy = "etag-1".
Proof.
  pose proof (grantRolesToServiceAccount_writes_what_it_read
                (W := Iam.Policy) "proj" "a@x.iam" ["roles/viewer"]
                MoreDoubles.policy1) as Hwrite.
  simpl in Hwrite.
  destruct (Hwrite (setRequest "proj" "a@x.iam" ["roles/viewer"]
                               MoreDoubles.policy1))
    as (w1 & policy & w2 & H1 & H2 & _ & _ & Hetag & _).
  - apply list_elem_of_In. simpl. tauto.
  - exists w1, policy, w2. split; [done|]. split; [done|].
    by rewrite <- Hetag.
Defined.

(** X10.  [grantRolesToServiceAccount] returns [nil] exactly when the
    client is created, the policy is read and the policy is written. *)
Theorem grantRolesToServiceAccount_nil_iff
    {W : Type} `{!IamPolicyClient W}
    (projectID serviceAccountEmail : string) (roles : list string) (w : W) :
  (Eff.run (grantRolesToServiceAccount projectID serviceAccountEmail roles)
           w).1.1 = None
  ↔ ∃ w1 policy w2 written w3,
      NewIamPolicyClient w = (None, w1) ∧
      GetIamPolicy (getRequest projectID) w1 = (inl policy, w2) ∧
      SetIamPolicy (setRequest projectID serviceAccountEmail roles policy) w2
      = (inl written, w3).
Proof.
  destruct (grantRolesToServiceAccount_cases projectID serviceAccountEmail
              roles w)
    as [(e & w1 & H1 & ->) | [(w1 & e & w2 & H1 & H2 & ->)
       | [(w1 & policy & w2 & e & w3 & H1 & H2 & H3 & ->)
         | (w1 & policy & w2 & p & w3 & H1 & H2 & H3 & ->)]]]; simpl.
  - split; [done|]. intros (? & ? & ? & ? & ? & H1' & _). congruence.
  - split; [done|]. intros (? & ? & ? & ? & ? & H1' & H2' & _). congruence.
  - split; [done|]. intros (? & ? & ? & ? & ? & H1' & H2' & H3'). congruence.
  - split; [|done]. intros _. by eexists _, _, _, _, _.
Qed.

(** X11.  A second run that reads the policy the first run wrote writes
    that policy back as it is. *)
Theorem grantRolesToServiceAccount_rerun
    {W : Type} `{!IamPolicyClient W}
    (projectID serviceAccountEmail : string) (roles : list string)
    (w w1 w2 v v1 v2 : W) (policy : Iam.Policy) :
  NewIamPolicyClient w = (None, w1) →
  GetIamPolicy (getRequest projectID) w1 = (inl policy, w2) →
  NewIamPolicyClient v = (None, v1) →
  GetIamPolicy (getRequest projectID) v1
  = (inl (sip_Policy (setRequest projectID serviceAccountEmail roles policy)),
     v2) →
  let first := setRequest projectID serviceAccountEmail roles policy in
  List.filter isSetPolicy
    (Eff.run (grantRolesToServiceAccount projectID serviceAccountEmail roles)
             w).2
  = [EvSetIamPolicy first] ∧
  List.filter isSetPolicy
    (Eff.run (grantRolesToServiceAccount projectID serviceAccountEmail roles)
             v).2
  = [EvSetIamPolicy first].
Proof.
  intros H1 H2 H3 H4. cbv zeta. split.
  - destruct (grantRolesToServiceAccount_cases projectID serviceAccountEmail
                roles w)
      as [(e & ? & H1' & ->) | [(? & e & ? & H1' & H2' & ->)
         | [(? & ? & ? & e & ? & H1' & H2' & H3' & ->)
           | (? & ? & ? & p & ? & H1' & H2' & H3' & ->)]]];
      simpl; congruence.
  - destruct (grantRolesToServiceAccount_cases projectID serviceAccountEmail
                roles v)
      as [(e & ? & H1' & ->) | [(? & e & ? & H1' & H2' & ->)
         | [(? & p0 & ? & e & ? & H1' & H2' & H3' & ->)
           | (? & p0 & ? & p & ? & H1' & H2' & H3' & ->)]]];
      simpl; try congruence.
    + assert (p0 = sip_Policy
                (setRequest projectID serviceAccountEmail roles policy))
        as -> by congruence.
      do 2 f_equal. unfold setRequest. simpl. f_equal.
      unfold Iam.Grant. simpl. f_equal. apply IamFacts.grantRoles_idempotent.
    + assert (p0 = sip_Policy
                (setRequest projectID serviceAccountEmail roles policy))
        as -> by congruence.
      do 2 f_equal. unfold setRequest. simpl. f_equal.
      unfold Iam.Grant. simpl. f_equal. apply IamFacts.grantRoles_idempotent.
Qed.

Lemma grantRolesToServiceAccount_rerun_witness :
  let first :=
    setRequest "proj" "a@x.iam" ["roles/viewer"; "roles/editor"]
               MoreDoubles.policy1 in
  List.filter isSetPolicy
    (Eff.run (grantRolesToServiceAccount "proj" "a@x.iam"
                ["roles/viewer"; "roles/editor"])
             (sip_Policy first)).2
  = [EvSetIamPolicy first].
Proof.
  cbv zeta.
  eapply (grantRolesToServiceAccount_rerun (W := Iam.Policy)
            "proj" "a@x.iam" ["roles/viewer"; "roles/editor"]
            MoreDoubles.policy1); reflexivity.
Defined.

End GcputilsMore.

(** * Further properties of the authenticator *)

Module AuthnMore.
Import Authn AuthnFacts AuthnMessages.

Section Cases.
Context {ClaimValue W : Type} `{!Library ClaimValue W}.
Implicit Types (v : GcpIdentifyPlatformAuthenticator)
  (ctx : Context ClaimValue) (w : W).

(** The six ways a run of [Authenticate] ends. *)
Lemma Authenticate_cases v ctx w :
  let run := Eff.run (Authenticate v ctx) w in
  (∃ method,
     grpc_Method ctx = (method, true) ∧
     is_Some (publicMethods v !! method) ∧
     run = ((Some ctx, None), w,
            [EvMethod;
             EvLog LevelDebug
               ("Skipping authentication for public method: " +:+ method)
               []]))
  ∨ (∃ err,
       nonPublic v ctx ∧
       auth_AuthFromMD ctx "bearer" = inr err ∧
       run = ((None, Some (status_Error Unauthenticated
                             "Authorization token not provided")), w,
              [EvMethod; EvAuthFromMD "bearer";
               EvLog LevelError
                 "authn.GcpIdentifyPlatformAuthenticator, failed to parse token"
                 [AttrString "error"; AttrError err]]))
  ∨ (∃ token err w1,
       nonPublic v ctx ∧
       auth_AuthFromMD ctx "bearer" = inl token ∧
       idtoken_NewValidator ctx w = (inr err, w1) ∧
       run = ((None, Some (status_Error Internal
                             "Authentication service error")), w1,
              [EvMethod; EvAuthFromMD "bearer"; EvNewValidator;
               EvLog LevelError
                 "authn.GcpIdentifyPlatformAuthenticator, failed to token validator"
                 [AttrString "error"; AttrError err]]))
  ∨ (∃ token validator w1 err w2,
       nonPublic v ctx ∧
       auth_AuthFromMD ctx "bearer" = inl token ∧
       idtoken_NewValidator ctx w = (inl validator, w1) ∧
       Validator_Validate validator ctx token (expectedAudience v) w1
       = (inr err, w2) ∧
       run = ((None, Some (status_Error Unauthenticated
                             "Invalid authentication token")), w2,
              [EvMethod; EvAuthFromMD "bearer"; EvNewValidator;
               EvValidate token (expectedAudience v);
               EvLog LevelError
                 "authn.GcpIdentifyPlatformAuthenticator, token validation failed"
                 [AttrString "error"; AttrError err]]))
  ∨ (∃ token validator w1 payload w2,
       nonPublic v ctx ∧
       auth_AuthFromMD ctx "bearer" = inl token ∧
       idtoken_NewValidator ctx w = (inl validator, w1) ∧
       Validator_Validate validator ctx token (expectedAudience v) w1
       = (inl payload, w2) ∧
       Issuer payload ≠ expectedIssuer v ∧
       run = ((None, Some (status_Error Unauthenticated
                             "Invalid token issuer")), w2,
              [EvMethod; EvAuthFromMD "bearer"; EvNewValidator;
               EvValidate token (expectedAudience v);
               EvLog LevelError
                 "authn.GcpIdentifyPlatformAuthenticator, invalid token issuer"
                 [AttrString "expected"; AttrString (expectedIssuer v);
                  AttrString "actual"; AttrString (Issuer payload)]]))
  ∨ (∃ token validator w1 payload w2,
       nonPublic v ctx ∧
       auth_AuthFromMD ctx "bearer" = inl token ∧
       idtoken_NewValidator ctx w = (inl validator, w1) ∧
       Validator_Validate validator ctx token (expectedAudience v) w1
       = (inl payload, w2) ∧
       Issuer payload = expectedIssuer v ∧
       run = ((Some (WithValue ctx ClaimsContextKey (Claims payload)), None),
              w2,
              [EvMethod; EvAuthFromMD "bearer"; EvNewValidator;
               EvValidate token (expectedAudience v);
               EvLog LevelDebug "successfully authenticated"
                 [AttrString "subject"; AttrString (Subject payload);
                  AttrString "email";
                  AttrAny (Claims payload !! "email")]])).
Proof.
  cbv zeta.
  destruct (grpc_Method ctx) as [method ok] eqn:Hm.
  assert ((ok = true ∧ is_Some (publicMethods v !! method))
          ∨ nonPublic v ctx) as [[-> Hpub]|Hnp].
  { unfold nonPublic. rewrite Hm. simpl. destruct ok; [|by right; left].
    destruct (publicMethods v !! method) eqn:E;
      [left; eauto | by right; right]. }
  - left. exists method. split; [done|]. split; [done|].
    unfold_run. rewrite Hm.
    by destruct (decide (is_Some (publicMethods v !! method))).
  - right. rewrite (Authenticate_nonPublic _ _ _ Hnp). unfold_run.
    destruct (auth_AuthFromMD ctx "bearer") as [token|err] eqn:Htok;
      [|left; by eexists].
    right.
    destruct (idtoken_NewValidator ctx w) as [[validator|err] w1] eqn:Hval;
      [|left; by eexists _, _, _].
    right.
    destruct (Validator_Validate validator ctx token (expectedAudience v) w1)
      as [[payload|err] w2] eqn:Hv; [|left; by eexists _, _, _, _, _].
    right.
    destruct (decide (Issuer payload ≠ expectedIssuer v)) as [Hne|Heq].
    + left. by eexists _, _, _, _, _.
    + right. eexists _, _, _, _, _.
      split; [done|]. split; [done|]. split; [done|]. split; [exact Hv|].
      split; [|done].
      by destruct (decide (Issuer payload = expectedIssuer v)).
Qed.
End Cases.

(** Splits a goal about a run of [Authenticate] into the six cases. *)
Ltac run_cases v ctx w :=
  destruct (Authenticate_cases v ctx w)
    as [(m0 & Cm & Cpub & ->)
       | [(e0 & Cnp & Ctok & ->)
         | [(t0 & e0 & wa & Cnp & Ctok & Cval & ->)
           | [(t0 & vd0 & wa & e0 & wb & Cnp & Ctok & Cval & Cv & ->)
             | [(t0 & vd0 & wa & p0 & wb
                 & Cnp & Ctok & Cval & Cv & Ciss & ->)
               | (t0 & vd0 & wa & p0 & wb
                  & Cnp & Ctok & Cval & Cv & Ciss & ->)]]]]].

Lemma nonPublic_not_public {ClaimValue W : Type} `{!Library ClaimValue W}
    (v : GcpIdentifyPlatformAuthenticator) (ctx : Context ClaimValue)
    (method : string) :
  nonPublic v ctx → grpc_Method ctx = (method, true) →
  publicMethods v !! method = None.
Proof. intros [Hnp|Hnp] Hm; rewrite Hm in Hnp; [done | exact Hnp]. Qed.

Lemma append_inj_r (prefix a b : string) :
  prefix +:+ a = prefix +:+ b → a = b.
Proof.
  induction prefix as [|c prefix IH]; simpl; [done|].
  intros [= H]. by apply IH.
Qed.

(** X12.  [Authenticate] returns a context and no error, or no context and
    a gRPC status: [Unauthenticated] with one of three texts, or
    [Internal], the latter only when no validator could be built. *)
Theorem Authenticate_result
    {ClaimValue W : Type} `{!Library ClaimValue W}
    (v : GcpIdentifyPlatformAuthenticator) (ctx : Context ClaimValue)
    (w : W) :
  let '(octx, oerr, _, _) := Eff.run (Authenticate v ctx) w in
  (is_Some octx ∧ oerr = None)
  ∨ (octx = None ∧
     ∃ msg,
       (oerr = Some (status_Error Unauthenticated msg) ∧
        msg ∈ unauthenticatedMessages)
       ∨ (oerr = Some (status_Error Internal msg) ∧
          msg = internalMessage ∧
          ∃ err w1, idtoken_NewValidator ctx w = (inr err, w1))).
Proof.
  unfold unauthenticatedMessages, internalMessage.
  run_cases v ctx w.
  - left. eauto.
  - right. split; [done|]. eexists. left. split; [done|]. left.
  - right. split; [done|]. eexists. right. eauto.
  - right. split; [done|]. eexists. left. split; [done|]. right. left.
  - right. split; [done|]. eexists. left. split; [done|]. do 2 right. left.
  - left. eauto.
Qed.

(** X13.  [Authenticate] returns a context only for a public method, and
    then the input context, or after the validator accepted the token for
    the expected audience with a payload of the expected issuer, and then
    the input context with the claims of that payload. *)
Theorem Authenticate_accepts_only_validated
    {ClaimValue W : Type} `{!Library ClaimValue W}
    (v : GcpIdentifyPlatformAuthenticator) (ctx : Context ClaimValue)
    (w : W) :
  let '(octx, _, w', _) := Eff.run (Authenticate v ctx) w in
  ∀ ctx', octx = Some ctx' →
    (ctx' = ctx ∧
     ∃ method, grpc_Method ctx = (method, true) ∧
               is_Some (publicMethods v !! method))
    ∨ (∃ token validator w1 payload,
         auth_AuthFromMD ctx "bearer" = inl token ∧
         idtoken_NewValidator ctx w = (inl validator, w1) ∧
         Validator_Validate validator ctx token (expectedAudience v) w1
         = (inl payload, w') ∧
         Issuer payload = expectedIssuer v ∧
         ctx' = WithValue ctx ClaimsContextKey (Claims payload)).
Proof.
  run_cases v ctx w; intros ctx' [=].
  - subst ctx'. left. eauto.
  - subst ctx'. right. by eexists _, _, _, _.
Qed.

Lemma Authenticate_accepts_only_validated_witness :
  (WithValue Doubles.ordersCall ClaimsContextKey (Claims Doubles.annPayload)
   = Doubles.ordersCall ∧
   ∃ method, grpc_Method Doubles.ordersCall = (method, true) ∧
             is_Some (publicMethods Doubles.authenticator1 !! method))
  ∨ (∃ token validator w1 payload,
       auth_AuthFromMD Doubles.ordersCall "bearer" = inl token ∧
       idtoken_NewValidator Doubles.ordersCall Doubles.platform1
       = (inl validator, w1) ∧
       Validator_Validate validator Doubles.ordersCall token
         (expectedAudience Doubles.authenticator1) w1
       = (inl payload, Doubles.platform1) ∧
       Issuer payload = expectedIssuer Doubles.authenticator1 ∧
       WithValue Doubles.ordersCall ClaimsContextKey
         (Claims Doubles.annPayload)
       = WithValue Doubles.ordersCall ClaimsContextKey (Claims payload)).
Proof.
  exact (Authenticate_accepts_only_validated (W := Doubles.Platform)
           Doubles.authenticator1 Doubles.ordersCall Doubles.platform1
           _ eq_refl).
Defined.

(** X14.  A context that [Authenticate] returns holds, under every key but
    [jwt_claims], what the input context holds under it. *)
Theorem Authenticate_keeps_context_values
    {ClaimValue W : Type} `{!Library ClaimValue W}
    (v : GcpIdentifyPlatformAuthenticator) (ctx : Context ClaimValue)
    (w : W) :
  let '(octx, _, _, _) := Eff.run (Authenticate v ctx) w in
  ∀ ctx' key, octx = Some ctx' → key ≠ ClaimsContextKey →
    Value ctx' key = Value ctx key.
Proof.
  run_cases v ctx w; intros ctx' key [=] Hkey; subst ctx'; [done|].
  simpl. by destruct (decide (ClaimsContextKey = key)).
Qed.

Lemma Authenticate_keeps_context_values_witness :
  Value (WithValue tracedCall ClaimsContextKey (Claims Doubles.annPayload))
        "trace"
  = Value tracedCall "trace".
Proof.
  refine (Authenticate_keeps_context_values (W := Doubles.Platform)
            Doubles.authenticator1 tracedCall Doubles.platform1
            _ "trace" eq_refl _).
  discriminate.
Defined.

(** X15.  On a call that is not public and carries no bearer token,
    [Authenticate] answers [Unauthenticated] without building a validator:
    the world is left as it was. *)
Theorem Authenticate_missing_token
    {ClaimValue W : Type} `{!Library ClaimValue W}
    (v : GcpIdentifyPlatformAuthenticator) (ctx : Context ClaimValue)
    (w : W) (err : error) :
  nonPublic v ctx →
  auth_AuthFromMD ctx "bearer" = inr err →
  ∃ trace,
    Eff.run (Authenticate v ctx) w
    = ((None, Some (status_Error Unauthenticated
                      "Authorization token not provided")), w, trace) ∧
    List.filter touchesToken trace = [EvAuthFromMD "bearer"].
Proof.
  intros Hnp' Htok'. run_cases v ctx w; try congruence.
  - rewrite (nonPublic_not_public _ _ _ Hnp' Cm) in Cpub. by destruct Cpub.
  - by eexists.
Qed.

Lemma Authenticate_missing_token_witness :
  ∃ trace,
    Eff.run (Authenticate Doubles.authenticator1 anonymousCall)
            Doubles.platform1
    = ((None, Some (status_Error Unauthenticated
                      "Authorization token not provided")),
       Doubles.platform1, trace) ∧
    List.filter touchesToken trace = [EvAuthFromMD "bearer"].
Proof.
  eapply (Authenticate_missing_token (W := Doubles.Platform)).
  - right. vm_compute. reflexivity.
  - vm_compute. reflexivity.
Defined.

(** X16.  When the token is extracted and no validator can be built,
    [Authenticate] answers [Internal] and never validates the token. *)
Theorem Authenticate_validator_unavailable
    {ClaimValue W : Type} `{!Library ClaimValue W}
    (v : GcpIdentifyPlatformAuthenticator) (ctx : Context ClaimValue)
    (w w1 : W) (token : string) (err : error) :
  nonPublic v ctx →
  auth_AuthFromMD ctx "bearer" = inl token →
  idtoken_NewValidator ctx w = (inr err, w1) →
  ∃ trace,
    Eff.run (Authenticate v ctx) w
    = ((None, Some (status_Error Internal "Authentication service error")),
       w1, trace) ∧
    List.filter touchesToken trace = [EvAuthFromMD "bearer"; EvNewValidator].
Proof.
  intros Hnp' Htok' Hval'. run_cases v ctx w; try congruence.
  - rewrite (nonPublic_not_public _ _ _ Hnp' Cm) in Cpub. by destruct Cpub.
  - assert (wa = w1) as -> by congruence. by eexists.
Qed.

Lemma Authenticate_validator_unavailable_witness :
  ∃ trace,
    Eff.run (Authenticate (W := unit) Doubles.authenticator1
               Doubles.ordersCall) tt
    = ((None, Some (status_Error Internal "Authentication service error")),
       tt, trace) ∧
    List.filter touchesToken trace = [EvAuthFromMD "bearer"; EvNewValidator].
Proof.
  eapply (Authenticate_validator_unavailable (W := unit)).
  - right. vm_compute. reflexivity.
  - vm_compute. reflexivity.
  - reflexivity.
Defined.

(** X17.  Of [publicMethods] only the keys count: two authenticators with
    the same audience and issuer whose maps have the same keys behave
    alike, whatever booleans the maps hold. *)
Theorem Authenticate_public_keys_only
    {ClaimValue W : Type} `{!Library ClaimValue W}
    (v v' : GcpIdentifyPlatformAuthenticator) (ctx : Context ClaimValue)
    (w : W) :
  expectedAudience v = expectedAudience v' →
  expectedIssuer v = expectedIssuer v' →
  dom (publicMethods v) = dom (publicMethods v') →
  Eff.run (Authenticate v ctx) w = Eff.run (Authenticate v' ctx) w.
Proof.
  destruct v as [aud iss methods], v' as [aud' iss' methods']. simpl.
  intros <- <- Hdom.
  unfold Eff.run, Authenticate, Eff.bind, Eff.call. simpl.
  destruct (grpc_Method ctx) as [method [|]]; [|done].
  assert (is_Some (methods !! method) ↔ is_Some (methods' !! method)) as Hiff
    by (by rewrite <- !elem_of_dom, Hdom).
  destruct (decide (is_Some (methods !! method))) as [Hs|Hs];
    destruct (decide (is_Some (methods' !! method))) as [Hs'|Hs'];
    try done; exfalso; tauto.
Qed.

Lemma Authenticate_public_keys_only_witness :
  Eff.run (Authenticate Doubles.authenticator1 Doubles.healthCall)
          Doubles.platform1
  = Eff.run (Authenticate authenticator1' Doubles.healthCall)
            Doubles.platform1.
Proof.
  apply (Authenticate_public_keys_only (W := Doubles.Platform));
    [reflexivity | reflexivity |].
  simpl. unfold Doubles.methods1. by rewrite !dom_singleton_L.
Defined.

(** X18.  The constructor checks the project id after trimming and keeps
    it as it was given: for a project id with white space around it, a
    token whose issuer is built from the trimmed id is rejected. *)
Theorem Authenticate_untrimmed_project_id
    {ClaimValue W : Type} `{!Library ClaimValue W}
    (unicode_TrimSpace : string → string)
    (conf : GcpIdentifyPlatformAuthenticatorConfig)
    (methods : gmap string bool)
    (v : GcpIdentifyPlatformAuthenticator) (ctx : Context ClaimValue)
    (w w1 w2 : W) (token : string) (validator : Validator)
    (payload : Payload ClaimValue) :
  NewGcpIdentityPlatformValidator unicode_TrimSpace conf methods
  = (Some v, None) →
  strings_TrimSpace unicode_TrimSpace (GcpProjectId conf)
  ≠ GcpProjectId conf →
  nonPublic v ctx →
  auth_AuthFromMD ctx "bearer" = inl token →
  idtoken_NewValidator ctx w = (inl validator, w1) →
  Validator_Validate validator ctx token (ExpectedAudience conf) w1
  = (inl payload, w2) →
  Issuer payload
  = "https://securetoken.google.com/"
    +:+ strings_TrimSpace unicode_TrimSpace (GcpProjectId conf) →
  ∃ trace,
    Eff.run (Authenticate v ctx) w
    = ((None, Some (status_Error Unauthenticated "Invalid token issuer")),
       w2, trace).
Proof.
  intros Hnew Hpad Hnp' Htok' Hval' Hv' Hiss'.
  destruct (NewGcpIdentityPlatformValidator_Some unicode_TrimSpace
              conf methods v) as (Hveq & _); [by rewrite Hnew|].
  assert (expectedAudience v = ExpectedAudience conf) as Haud
    by (by rewrite Hveq).
  assert (Issuer payload ≠ expectedIssuer v) as Hne.
  { rewrite Hveq, Hiss'. simpl. intros Heq.
    by apply append_inj_r in Heq. }
  rewrite <- Haud in Hv'.
  run_cases v ctx w; try congruence.
  - rewrite (nonPublic_not_public _ _ _ Hnp' Cm) in Cpub. by destruct Cpub.
  - assert (wb = w2) as -> by congruence. by eexists.
Qed.

Lemma Authenticate_untrimmed_project_id_witness :
  ∃ trace,
    Eff.run (Authenticate paddedAuthenticator Doubles.ordersCall)
            Doubles.platform1
    = ((None, Some (status_Error Unauthenticated "Invalid token issuer")),
       Doubles.platform1, trace).
Proof.
  eapply (Authenticate_untrimmed_project_id (W := Doubles.Platform)
            Doubles.noUnicodeTrim paddedConf Doubles.methods1
            paddedAuthenticator Doubles.ordersCall Doubles.platform1
            Doubles.platform1 Doubles.platform1 "tok1" _
            Doubles.annPayload).
  - reflexivity.
  - vm_compute. discriminate.
  - right. vm_compute. reflexivity.
  - vm_compute. reflexivity.
  - reflexivity.
  - vm_compute. reflexivity.
  - reflexivity.
Defined.

End AuthnMore.

(** * Further properties of [environ/unmarshal.go] *)

Module EnvironMore.
Import Environ EnvironFacts EnvironTag.

(** The loop of [parseTagValue] from any state. *)
Lemma parseTagValue_loop (parts : list string) (envVar : string)
    (optional : bool) (err : option error) :
  let names := List.filter (λ part, negb (isOptional part)) parts in
  fold_left parseTagValue_step parts (envVar, optional, err)
  = (if decide (envVar = "") then hd EmptyString (dropEmpty names)
     else envVar,
     optional || existsb isOptional parts,
     if decide (envVar = "")
     then if Nat.leb (length (dropEmpty names)) 1 then err
          else Some ErrMalformedTag
     else match names with [] => err | _ => Some ErrMalformedTag end).
Proof.
  cbv zeta. revert envVar optional err.
  induction parts as [|part parts IH]; intros envVar optional err.
  - simpl. rewrite orb_false_r. by destruct (decide (envVar = "")) as [->|].
  - simpl.
    change (strings_EqualFold part "optional") with (isOptional part).
    destruct (isOptional part) eqn:E; simpl.
    + rewrite IH. by rewrite orb_true_r.
    + destruct (decide (envVar = "")) as [->|Hne]; rewrite IH.
      * destruct part as [|c part].
        -- by destruct (decide (EmptyString = "")).
        -- destruct (decide (String c part = "")) as [?|_]; [done|]. simpl.
           by destruct (List.filter (λ p, negb (isOptional p)) parts).
      * destruct (decide (envVar = "")); [done|].
        by destruct (List.filter (λ p, negb (isOptional p)) parts).
Qed.

(** X19.  [parseTagValue] on a tag: the variable is the first part that is
    neither empty nor the word [optional] (in any case), or empty when
    there is none; the flag is set when some part is that word, wherever
    it stands; and the tag is malformed exactly when a part that is not
    that word follows the variable. *)
Theorem parseTagValue_closed_form (value : string) :
  parseTagValue value
  = (hd EmptyString (dropEmpty (tagNames value)),
     existsb isOptional (strings_Split_comma value),
     if Nat.leb (length (dropEmpty (tagNames value))) 1 then None
     else Some ErrMalformedTag).
Proof.
  unfold parseTagValue, tagNames.
  by rewrite (parseTagValue_loop (strings_Split_comma value) "" false None).
Qed.

Section Fields.
Context `{!Strconv}.
Implicit Types (env : gmap string string) (f g field : Field).

(** What an iteration does depends on the field through its shape: on two
    fields of one shape it reports the same errors, and leaves both as they
    were or sets both to the same value. *)
Lemma Unmarshal_field_sameShape env f g :
  sameShape f g →
  fieldErrors env f = fieldErrors env g ∧
  ((fieldAfter env f = f ∧ fieldAfter env g = g)
   ∨ ∃ v, fieldAfter env f = set f v ∧ fieldAfter env g = set g v).
Proof.
  destruct f as [c t k n v], g as [c' t' k' n' v'].
  intros (Hc & Ht & Hk & Hn). simpl in *. subst c' t' k' n'.
  unfold fieldErrors, fieldAfter, Unmarshal_field. simpl.
  destruct c; simpl; [|by split; [|left]].
  destruct t as [tagEncoded|]; [|by split; [|left]].
  destruct (parseTagValue tagEncoded) as [[tag optional] [err|]];
    [by split; [|left]|].
  destruct (os_LookupEnv env tag) as [val [|]]; simpl;
    [|destruct optional; by split; [|left]].
  destruct k; simpl; try (by split; [|left]).
  - destruct (ParseBool val); [by split; [|right; eexists]|by split; [|left]].
  - destruct (ParseInt val 10 _);
      [by split; [|right; eexists]|by split; [|left]].
  - destruct (ParseInt val 10 _);
      [by split; [|right; eexists]|by split; [|left]].
  - destruct (ParseInt val 10 _);
      [by split; [|right; eexists]|by split; [|left]].
  - destruct (ParseFloat val _);
      [by split; [|right; eexists]|by split; [|left]].
  - destruct (ParseFloat val _);
      [by split; [|right; eexists]|by split; [|left]].
  - by split; [|right; eexists].
Qed.

Lemma sameShape_refl f : sameShape f f.
Proof. by repeat split. Qed.

Lemma sameShape_set f v : sameShape f (set f v).
Proof. by repeat split. Qed.

Lemma sameShape_fieldAfter env f : sameShape f (fieldAfter env f).
Proof.
  destruct (Unmarshal_field_sameShape env f f (sameShape_refl f))
    as [_ [[-> _] | (v & -> & _)]];
    [apply sameShape_refl | apply sameShape_set].
Qed.

Lemma set_sameShape f g v : sameShape f g → set g v = set f v.
Proof.
  destruct f, g. intros (Hc & Ht & Hk & Hn). simpl in *.
  unfold set. simpl. congruence.
Qed.

(** The iteration on a field that an iteration has left. *)
Lemma Unmarshal_field_again env f :
  Unmarshal_field env (fieldAfter env f)
  = (fieldAfter env f, fieldErrors env f).
Proof.
  pose proof (sameShape_fieldAfter env f) as Hs.
  destruct (Unmarshal_field_sameShape env f (fieldAfter env f) Hs)
    as [He Hafter].
  rewrite (surjective_pairing (Unmarshal_field env (fieldAfter env f))).
  fold (fieldAfter env (fieldAfter env f)).
  fold (fieldErrors env (fieldAfter env f)).
  rewrite <- He. f_equal.
  destruct Hafter as [[_ Hg] | (v & Hf & Hg)]; [done|].
  rewrite Hg, (set_sameShape _ _ v Hs). done.
Qed.
End Fields.

(** X20.  [Unmarshal] on the struct that [Unmarshal] has left, in the same
    environment, leaves the struct as it is and returns the same error. *)
Theorem Unmarshal_idempotent {strconv : Strconv}
    (env : gmap string string) (config : list Field) :
  Unmarshal env (Unmarshal env config).1 = Unmarshal env config.
Proof.
  rewrite !Unmarshal_eq. cbn [fst snd]. rewrite <- !list_fmap_compose.
  assert (fieldAfter env ∘ fieldAfter env <$> config
          = fieldAfter env <$> config) as ->.
  { apply list_fmap_ext. intros i f _. simpl. unfold fieldAfter at 1.
    by rewrite Unmarshal_field_again. }
  assert (fieldErrors env ∘ fieldAfter env <$> config
          = fieldErrors env <$> config) as ->; [|done].
  apply list_fmap_ext. intros i f _. simpl. unfold fieldErrors at 1.
  by rewrite Unmarshal_field_again.
Qed.

(** X21.  [Unmarshal] keeps the number of fields and, of each field,
    everything but the value; and it keeps the value too of a field that
    cannot be set, of a field without [env] tag, and of a field whose
    iteration reports an error. *)
Theorem Unmarshal_frame {strconv : Strconv}
    (env : gmap string string) (config : list Field) :
  length (Unmarshal env config).1 = length config ∧
  ∀ i field, config !! i = Some field →
    ∃ field',
      (Unmarshal env config).1 !! i = Some field' ∧
      sameShape field field' ∧
      (f_CanSet field = false ∨ f_Tag field = None
       ∨ failing env field = true → field' = field).
Proof.
  rewrite Unmarshal_eq. cbn [fst snd]. split; [by rewrite length_fmap|].
  intros i field Hi. exists (fieldAfter env field).
  split; [by rewrite list_lookup_fmap, Hi|].
  split; [apply sameShape_fieldAfter|].
  intros [Hc | [Ht | Hf]].
  - unfold fieldAfter, Unmarshal_field. by rewrite Hc.
  - unfold fieldAfter, Unmarshal_field. rewrite Ht.
    by destruct (f_CanSet field).
  - destruct (Unmarshal_field_error env field)
      as [He | (text & e & He & Hafter & _)]; [|done].
    unfold failing in Hf. by rewrite He in Hf.
Qed.

(** X22.  [Unmarshal] reads the environment at the variables that the tags
    of the struct name, and nowhere else: in two environments that agree on
    these variables it does the same. *)
Theorem Unmarshal_reads_named_variables {strconv : Strconv}
    (env env' : gmap string string) (config : list Field) :
  (∀ field tagEncoded,
     field ∈ config → f_Tag field = Some tagEncoded →
     env !! tagName tagEncoded = env' !! tagName tagEncoded) →
  Unmarshal env config = Unmarshal env' config.
Proof.
  intros Hagree. rewrite !Unmarshal_eq.
  assert (∀ field, field ∈ config →
            Unmarshal_field env field = Unmarshal_field env' field) as Hsame.
  { intros field Hin. unfold Unmarshal_field.
    destruct (f_CanSet field); simpl; [|done].
    destruct (f_Tag field) as [tagEncoded|] eqn:Ht; [|done].
    specialize (Hagree field tagEncoded Hin Ht). unfold tagName in Hagree.
    destruct (parseTagValue tagEncoded) as [[tag optional] err].
    simpl in Hagree. unfold os_LookupEnv. by rewrite Hagree. }
  assert (fieldAfter env <$> config = fieldAfter env' <$> config) as ->.
  { apply list_fmap_ext. intros i f Hi. unfold fieldAfter.
    rewrite Hsame; [done|]. by eapply list_elem_of_lookup_2. }
  assert (fieldErrors env <$> config = fieldErrors env' <$> config) as ->;
    [|done].
  apply list_fmap_ext. intros i f Hi. unfold fieldErrors.
  rewrite Hsame; [done|]. by eapply list_elem_of_lookup_2.
Qed.

Lemma Unmarshal_reads_named_variables_witness :
  let config := [mkField true (Some "NAME") String_ "string" VOther] in
  Unmarshal (H := Doubles.decimalStrconv)
    {["NAME" := "svc"; "OTHER" := "1"]} config
  = Unmarshal {["NAME" := "svc"]} config.
Proof.
  intros config.
  apply (Unmarshal_reads_named_variables (strconv := Doubles.decimalStrconv)).
  intros field tagEncoded Hin Ht.
  apply list_elem_of_singleton in Hin as ->. injection Ht as <-.
  vm_compute. reflexivity.
Defined.

Lemma length_errors {strconv : Strconv}
    (env : gmap string string) (config : list Field) :
  length (concat (fieldErrors env <$> config))
  = length (List.filter (failing env) config).
Proof.
  induction config as [|field config IH]; [done|].
  rewrite fmap_cons. cbn [concat List.filter].
  rewrite length_app, IH. unfold failing at 2.
  destruct (Unmarshal_field_error env field)
    as [He | (text & e & He & _)]; rewrite He; done.
Qed.

(** X23.  The error [Unmarshal] returns joins one error for each field
    whose iteration fails, and [Unmarshal] returns [nil] when no iteration
    fails: a join is never empty. *)
Theorem Unmarshal_error_count {strconv : Strconv}
    (env : gmap string string) (config : list Field) :
  match (Unmarshal env config).2 with
  | None => List.filter (failing env) config = []
  | Some e =>
      ∃ errs, e = errors_Join errs ∧ errs ≠ [] ∧
              length errs = length (List.filter (failing env) config)
  end.
Proof.
  rewrite Unmarshal_eq. cbn [fst snd].
  pose proof (length_errors env config) as Hlen.
  destruct (concat (fieldErrors env <$> config)) as [|e errs].
  - simpl in Hlen. by destruct (List.filter (failing env) config).
  - eexists. split; [done|]. split; [done|]. exact Hlen.
Qed.

End EnvironMore.

(** * Properties of [environ/environment.go] *)

Module EnvironmentFacts.
Import Environment.

(** The two results of [ParseEnvironment]. *)
Lemma ParseEnvironment_cases (unicode_ToLower : string → string)
    (s : string) :
  (∃ e, named e ∧ ParseEnvironment unicode_ToLower s = (e, None))
  ∨ ParseEnvironment unicode_ToLower s
    = (Unknown, Some ErrInvalidEnvironment).
Proof.
  unfold ParseEnvironment, named. repeat case_bool_decide; eauto;
    left; eexists; (split; [|reflexivity]); unfold Test, Development,
    Staging, Production; lia.
Qed.

(** X24.  [ParseEnvironment] reads back what [String] writes exactly for
    the four environments of development, staging, production and test:
    not for [Unknown], whose name is no environment, nor for a value
    without a name. *)
Theorem ParseEnvironment_String (unicode_ToLower : string → string)
    (e : Environment) :
  ParseEnvironment unicode_ToLower (Environment_String e) = (e, None)
  ↔ named e.
Proof.
  unfold named, Environment_String, Test, Development, Staging, Production,
    Unknown.
  repeat case_decide; subst; split; try lia; try done;
    vm_compute; intros [= ?]; lia.
Qed.

(** X25.  [ParseEnvironment] returns one of the four named environments
    and no error, or [Unknown] and [ErrInvalidEnvironment]; and the name
    [String] gives to an environment it returns parses to that
    environment. *)
Theorem ParseEnvironment_result (unicode_ToLower : string → string)
    (s : string) :
  let '(e, err) := ParseEnvironment unicode_ToLower s in
  (err = None ∧ named e ∧
   ParseEnvironment unicode_ToLower (Environment_String e) = (e, None))
  ∨ (e = Unknown ∧ err = Some ErrInvalidEnvironment).
Proof.
  destruct (ParseEnvironment_cases unicode_ToLower s)
    as [(e & He & ->) | ->]; [left | by right].
  split; [done|]. split; [done|].
  unfold named in He.
  assert (e = 1 ∨ e = 2 ∨ e = 3 ∨ e = 4)%Z as [->|[->|[->| ->]]] by lia;
    reflexivity.
Qed.

(** X26.  [GetEnvironment] ends in one of three ways: a named environment
    and no error, when the variable holds a text that parses;
    [ErrEnvironmentMissing], when the variable is not set or is empty; the
    invalid-environment error, wrapped, when it holds another text.  The
    environment is [Unknown] whenever there is an error. *)
Theorem GetEnvironment_result (unicode_ToLower : string → string)
    (env : gmap string string) :
  let '(e, err) := GetEnvironment unicode_ToLower env in
  (err = None ∧ named e ∧
   ∃ s, env !! environmentVarName = Some s ∧
        ParseEnvironment unicode_ToLower s = (e, None))
  ∨ (e = Unknown ∧ err = Some ErrEnvironmentMissing ∧
     (env !! environmentVarName = None
      ∨ env !! environmentVarName = Some EmptyString))
  ∨ (e = Unknown ∧
     err = Some (fmt_Errorf "environment misconfigured: "
                   ErrInvalidEnvironment) ∧
     ∃ s, env !! environmentVarName = Some s ∧ s ≠ EmptyString ∧
          ParseEnvironment unicode_ToLower s
          = (Unknown, Some ErrInvalidEnvironment)).
Proof.
  unfold GetEnvironment, os_Getenv.
  destruct (env !! environmentVarName) as [s|] eqn:Hs; simpl.
  - destruct (decide (s = "")) as [->|Hne]; [right; left; auto|].
    destruct (ParseEnvironment_cases unicode_ToLower s)
      as [(e & He & Hp) | Hp]; rewrite Hp.
    + left. split; [done|]. split; [done|]. by exists s.
    + right. right. split; [done|]. split; [done|]. by exists s.
  - right. left. auto.
Qed.

End EnvironmentFacts.
